(** * Inserve: dependency-injected handlers on top of an Express route table

    A shallow embedding of [Handler.from] and of [Server] ([listen],
    [get]/[post]/[use], [attach], [wrapHandler]) together with the
    properties of the dispatch wrapper that [wrapHandler] returns.

    JavaScript objects with identity (containers, servers, the closures
    returned by [wrapHandler], responses, transports, promises) live in
    stores indexed by [nat]; the code's mutations are updates of those
    stores.  An [async] function is a computation in the monad [M], whose
    result is a settled value, a thrown value, or [Hang] when the code is
    suspended on a promise that never settles.  One call of a closure is
    followed from its start to its end; what a handler writes while the
    closure is suspended is part of the handler's description
    ([Behaviour]).  Express, the transport and the injection container are
    libraries: they are modelled by what the code asks of them. *)

From stdpp Require Import gmap strings list fin_maps.

Open Scope string_scope.
Open Scope list_scope.

(** ** Values that cross the API *)

(** What a [throw] carries and a [catch] receives.  The code inspects a
    caught value only through [err?.message ?? err ?? fallback], so three
    shapes are told apart: an [Error] with its message, another value that
    is neither [null] nor [undefined] and has no [message] (a thrown
    string, say; [text] is the value), and [null]/[undefined].  A thrown
    number is kept apart from the other values without [message] because
    Express's [send] treats a number differently. *)
Inductive Thrown :=
  | ThrownError (message : string)
  | ThrownOther (text : string)
  | ThrownNumber (n : nat)
  | ThrownNullish.

(** Injectable values. *)
Inductive Value :=
  | VText (s : string)
  | VHttpServer (transport : nat).

(** [express.Request]: the wrapper only passes it on. *)
Definition Req := string.

(** ** The response object *)

(** Modelled from the spec: [express.Response] is not part of the
    repository.  The record is the response as the client gets it:
    [status(n)] chooses the code, [send(b)] chooses the body and finalizes
    the response ("response already sent"), [headersSent] tells whether it
    was finalized.  A new response has the default success status, 200.
    Once the response is finalized nothing changes it any more: the
    client has it. *)
Record Response := mkResponse {
  statusCode : nat;
  body : option string;
  headersSent : bool
}.

Definition new_response : Response := mkResponse 200 None false.

(** [SendStatus code] is [send(code)] with a number, which Express 4 takes
    as the status: it sets the code and sends the reason phrase of the
    code, a text that the record does not keep. *)
Inductive ResOp :=
  | Status (code : nat)
  | Send (b : string)
  | SendStatus (code : nat).

Definition apply_op (r : Response) (op : ResOp) : Response :=
  if headersSent r then r
  else match op with
       | Status code => mkResponse code (body r) false
       | Send b => mkResponse (statusCode r) (Some b) true
       | SendStatus code => mkResponse code None true
       end.

(** What is handed to [send]. *)
Inductive SendArg :=
  | SendText (b : string)
  | SendNumber (code : nat).

Definition send_op (arg : SendArg) : ResOp :=
  match arg with
  | SendText b => Send b
  | SendNumber code => SendStatus code
  end.

(** Modelled from the spec: the error of Node's [http] for a write of
    headers to a response that is finalized ([ERR_HTTP_HEADERS_SENT]);
    [send] on such a response throws it. *)
Definition headers_sent_error : Thrown :=
  ThrownError "Cannot set headers after they are sent to the client".

Definition apply_ops (ops : list ResOp) (r : Response) : Response :=
  fold_left apply_op ops r.

(** ** Handler classes *)

Inductive Settle :=
  | Fulfils
  | Rejects (e : Thrown)
  | NeverSettles.

(** How one call of [handle(req, res)] ends: it returns a non-promise, it
    throws, or it returns a promise; [during] are the response writes made
    while the caller is suspended on that promise. *)
Inductive Completion :=
  | ReturnsVoid
  | ThrowsSync (e : Thrown)
  | ReturnsPromise (during : list ResOp) (s : Settle).

(** What a handler does to the response: writes made inside the call,
    how the call ends, and writes of work the handler left scheduled that
    run during the one scheduler tick the wrapper yields afterwards.  A
    write to a finalized response changes nothing for the client; the
    error that [send] throws there is the handler's to catch or to let
    out, which its [Completion] tells. *)
Record Behaviour := mkBehaviour {
  b_sync : list ResOp;
  b_completion : Completion;
  b_tick : list ResOp
}.

Inductive ClassKind :=
  | HandlerClass (handle : list Value → Req → Behaviour)
  | ServerClass.

(** [Newable<Handler | Server>]: a class, with the tokens its constructor
    asks for, what its constructor throws (if it does), and the text that
    a template string renders for it. *)
Record Newable := mkNewable {
  cls_name : string;
  cls_source : string;
  cls_deps : list string;
  cls_ctor_throws : option Thrown;
  cls_kind : ClassKind
}.

(** What [container.resolve] returns: an object with a [handle] method
    (the class's method, closed over the injected values) or a [Server]. *)
Inductive Instance :=
  | IHandler (cls : string) (deps : list Value) (handle : Req → Behaviour)
  | IServer (sid : nat).

(** ** Paths *)

Inductive Pattern :=
  | PatString (s : string)
  | PatRegExp (source : string).

(** [PathParamsStr = string | RegExp | Array<string | RegExp>] *)
Inductive PathParamsStr :=
  | PString (s : string)
  | PRegExp (source : string)
  | PArray (items : list Pattern).

(** [PathParams = PathParamsStr | { path: PathParamsStr; eager?: boolean }] *)
Inductive PathParams :=
  | Bare (p : PathParamsStr)
  | Config (path : PathParamsStr) (eager : option bool).

(** The first argument handed to [express_server[method]]. *)
Inductive PathArg :=
  | ArgPath (p : PathParamsStr)
  | ArgNull.

(** [attach] is private; [get], [post] and [use] are its only callers. *)
Inductive Method := GET | POST | USE.

(** ** Stores *)

(** Modelled from the spec: tsyringe's [DependencyContainer] is not part of
    the repository.  An Injection Scope is "a mapping from a type/token to a
    factory or value" that "supports creating a child scope that inherits
    parent registrations and can be overridden independently".  A token is
    identified with its description. *)
Inductive Provider :=
  | UseValue (v : Value)
  | UseFactory (outcome : Thrown + Value).

Record Container := mkContainer {
  registry : gmap string Provider;
  parent : option nat
}.

(** [container as RootContainer]: the process-wide scope. *)
Definition RootContainer : nat := 0.

Definition HTTP_SERVER_TOKEN : string := "HTTP_SERVER_TOKEN".

(** One call [express_server[method](path, ...callbacks)]; the callbacks
    are the closures made by [wrapHandler], by identity. *)
Record Registration := mkRegistration {
  reg_method : Method;
  reg_path : PathArg;
  reg_callbacks : list nat
}.

(** A [Server]: its route table and its [container] field. *)
Record ServerObj := mkServerObj {
  express_server : list Registration;
  container : nat
}.

(** The closure returned by [wrapHandler]: the captured [this] and [h],
    and the captured variable [instance]. *)
Record Wrapper := mkWrapper {
  w_this : nat;
  w_h : Newable;
  w_instance : option Instance
}.

Inductive PromiseState :=
  | Pending
  | Fulfilled
  | Rejected (e : Thrown).

(** Modelled from the spec: the transport ([http.Server]) is not part of
    the repository.  [listen(port, callback)] returns the handle at once;
    whether binding succeeded is told later, by the ['listening'] callback
    or by an ['error'] event.  The record keeps the bind state and the
    promises that the registered listeners settle. *)
Inductive BindState :=
  | Binding
  | Accepting
  | BindFailed (e : Thrown).

Record Transport := mkTransport {
  t_port : N;
  t_state : BindState;
  t_on_listening : list nat;
  t_on_error : list nat
}.

Inductive Event :=
  | EvResolve (c : nat) (cls : string)
  | EvCreateChild (parent child : nat)
  | EvSetContainer (sid c : nat)
  | EvForward (sid : nat) (req : Req) (res next : nat)
  | EvHandle (cls : string) (deps : list Value) (req : Req) (res : nat)
  | EvAwait
  | EvStatus (res code : nat)
  | EvSend (res : nat) (arg : SendArg)
  | EvYield
  | EvCheck (res : nat) (sent : bool)
  | EvNext (next : nat).

Record World := mkWorld {
  containers : gmap nat Container;
  servers : gmap nat ServerObj;
  wrappers : gmap nat Wrapper;
  responses : gmap nat Response;
  transports : gmap nat Transport;
  promises : gmap nat PromiseState;
  console : list Thrown;
  trace : list Event
}.

Definition set_containers (f : gmap nat Container → gmap nat Container) (w : World) : World :=
  mkWorld (f (containers w)) (servers w) (wrappers w) (responses w)
          (transports w) (promises w) (console w) (trace w).

Definition set_servers (f : gmap nat ServerObj → gmap nat ServerObj) (w : World) : World :=
  mkWorld (containers w) (f (servers w)) (wrappers w) (responses w)
          (transports w) (promises w) (console w) (trace w).

Definition set_wrappers (f : gmap nat Wrapper → gmap nat Wrapper) (w : World) : World :=
  mkWorld (containers w) (servers w) (f (wrappers w)) (responses w)
          (transports w) (promises w) (console w) (trace w).

Definition set_responses (f : gmap nat Response → gmap nat Response) (w : World) : World :=
  mkWorld (containers w) (servers w) (wrappers w) (f (responses w))
          (transports w) (promises w) (console w) (trace w).

Definition set_transports (f : gmap nat Transport → gmap nat Transport) (w : World) : World :=
  mkWorld (containers w) (servers w) (wrappers w) (responses w)
          (f (transports w)) (promises w) (console w) (trace w).

Definition set_promises (f : gmap nat PromiseState → gmap nat PromiseState) (w : World) : World :=
  mkWorld (containers w) (servers w) (wrappers w) (responses w)
          (transports w) (f (promises w)) (console w) (trace w).

Definition set_console (f : list Thrown → list Thrown) (w : World) : World :=
  mkWorld (containers w) (servers w) (wrappers w) (responses w)
          (transports w) (promises w) (f (console w)) (trace w).

Definition set_trace (f : list Event → list Event) (w : World) : World :=
  mkWorld (containers w) (servers w) (wrappers w) (responses w)
          (transports w) (promises w) (console w) (f (trace w)).

(** A key no object of the store has yet. *)
Definition fresh_key {A} (m : gmap nat A) : nat := fresh (dom m).

(** ** Computations *)

Inductive Res (A : Type) :=
  | Ok (a : A)
  | Raise (e : Thrown)
  | Hang.
Arguments Ok {A} a.
Arguments Raise {A} e.
Arguments Hang {A}.

Definition M (A : Type) : Type := World → Res A * World.

Definition ret {A} (a : A) : M A := fun w => (Ok a, w).

Definition bind {A B} (m : M A) (k : A → M B) : M B := fun w =>
  match m w with
  | (Ok a, w') => k a w'
  | (Raise e, w') => (Raise e, w')
  | (Hang, w') => (Hang, w')
  end.

Definition throw {A} (e : Thrown) : M A := fun w => (Raise e, w).

(** [try { m } catch (err) { h err }]: what [m] did before it threw stays
    done. *)
Definition try_catch {A} (m : M A) (h : Thrown → M A) : M A := fun w =>
  match m w with
  | (Raise e, w') => h e w'
  | r => r
  end.

Definition modify (f : World → World) : M unit := fun w => (Ok tt, f w).

Definition gets {A} (f : World → A) : M A := fun w => (Ok (f w), w).

Notation "'let*' x ':=' m 'in' k" := (bind m (fun x => k))
  (at level 10, x name, m at level 100, k at level 200).
Notation "m ';;' k" := (bind m (fun _ => k))
  (at level 100, k at level 200, right associativity).

Definition emit (e : Event) : M unit := modify (set_trace (fun t => t ++ [e])).

Fixpoint mapM {A B} (f : A → M B) (l : list A) : M (list B) :=
  match l with
  | [] => ret []
  | x :: xs => let* y := f x in let* ys := mapM f xs in ret (y :: ys)
  end.

(** ** The injection container *)

(** Modelled from the spec: a child scope "inherits parent registrations".
    Looks [tok] up in container [c], then in its ancestors.  A chain of
    parents is no longer than the store, which bounds the walk. *)
Fixpoint find_provider (fuel : nat) (cs : gmap nat Container) (c : nat)
    (tok : string) : option Provider :=
  match fuel with
  | 0 => None
  | S fuel' =>
      match cs !! c with
      | None => None
      | Some ct =>
          match registry ct !! tok with
          | Some p => Some p
          | None =>
              match parent ct with
              | Some up => find_provider fuel' cs up tok
              | None => None
              end
          end
      end
  end.

(** Modelled from the spec: the [Error] for a token that has no provider.
    The text stands for tsyringe's own, which is longer (it names the
    constructor parameter and quotes the token); the code only passes the
    message on. *)
Definition unregistered (tok : string) : Thrown :=
  ThrownError ("Attempted to resolve unregistered dependency token: " +:+ tok).

Definition resolve_token (c : nat) (tok : string) : M Value := fun w =>
  match find_provider (size (containers w)) (containers w) c tok with
  | None => (Raise (unregistered tok), w)
  | Some (UseValue v) => (Ok v, w)
  | Some (UseFactory (inl e)) => (Raise e, w)
  | Some (UseFactory (inr v)) => (Ok v, w)
  end.

(** Modelled from the spec: [container.register(token, provider)]; a later
    registration of the same token overrides the earlier one. *)
Definition register (c : nat) (tok : string) (p : Provider) : M unit :=
  modify (set_containers
    (alter (fun ct => mkContainer (<[tok := p]> (registry ct)) (parent ct)) c)).

(** Modelled from the spec: [container.createChildContainer()], an empty
    scope under a new identity whose parent is [c]. *)
Definition createChildContainer (c : nat) : M nat := fun w =>
  let child := fresh_key (containers w) in
  (Ok child,
   set_trace (fun t => t ++ [EvCreateChild c child])
     (set_containers (insert child (mkContainer ∅ (Some c))) w)).

(** [new Server()]: the field initialisers give a new route table and the
    root container. *)
Definition new_server : M nat := fun w =>
  let sid := fresh_key (servers w) in
  (Ok sid, set_servers (insert sid (mkServerObj [] RootContainer)) w).

(** Modelled from the spec: [container.resolve(h)].  The constructor's
    tokens are resolved in order, then the constructor runs; a missing
    provider, a failing factory and a failing constructor make it throw. *)
Definition resolve (c : nat) (h : Newable) : M Instance :=
  emit (EvResolve c (cls_name h)) ;;
  let* deps := mapM (resolve_token c) (cls_deps h) in
  match cls_ctor_throws h with
  | Some e => throw e
  | None =>
      match cls_kind h with
      | HandlerClass handle => ret (IHandler (cls_name h) deps (handle deps))
      | ServerClass => let* sid := new_server in ret (IServer sid)
      end
  end.

(** ** [Handler.from] *)

(** One step of a raw Express callback [f(req, res, next)]: a write to
    [res], a call of the [next] it was given ([next()], or [next(err)] to
    report an error the Express way), or a [throw]. *)
Inductive CbStep :=
  | CbWrite (op : ResOp)
  | CbNext (err : option Thrown)
  | CbThrow (e : Thrown).

(** What one call of the callback does: the steps of the call itself, and
    the steps of the work it leaves scheduled, one list per later task.
    [cb_due] tells how many of the tasks that are still to run when the
    promise of [handle] settles run before the timer that the wrapper
    sets then: the timers without delay that the callback had queued
    before do, a timer with a long delay does not. *)
Record Callback := mkCallback {
  cb_sync : list CbStep;
  cb_later : list (list CbStep);
  cb_due : nat
}.

(** A promise settles once. *)
Definition settle (s p : PromiseState) : PromiseState :=
  match p with
  | Pending => s
  | _ => p
  end.

(** Runs one task with [next] bound to the promise's [resolve]: the writes
    made, the promise afterwards, and the value thrown if the task ended in
    a [throw].  [resolve(err)] fulfils the promise with [err] as its value,
    as [resolve()] does with [undefined]. *)
Fixpoint run_task (steps : list CbStep) (p : PromiseState)
    : list ResOp * PromiseState * option Thrown :=
  match steps with
  | [] => ([], p, None)
  | CbWrite op :: k =>
      let '(ws, p', t) := run_task k p in (op :: ws, p', t)
  | CbNext _ :: k => run_task k (settle Fulfilled p)
  | CbThrow e :: _ => ([], p, Some e)
  end.

(** [new Promise((resolve, reject) => { express_handler(req, res, resolve) })]:
    the executor runs at once; if it throws, the promise is rejected with
    the thrown value, unless it is settled already.  [reject] is not handed
    to anything. *)
Definition run_executor (cb : Callback) : list ResOp * PromiseState :=
  let '(ws, p, t) := run_task (cb_sync cb) Pending in
  (ws, match t with Some e => settle (Rejected e) p | None => p end).

(** The later tasks, while the promise is pending: the writes made up to
    and including the task that settles it, the promise at that point, and
    the tasks still to run.  A [throw] in a later task ends that task and
    reaches no one who holds the promise. *)
Fixpoint run_later (tasks : list (list CbStep)) (p : PromiseState)
    : list ResOp * PromiseState * list (list CbStep) :=
  match p, tasks with
  | Pending, task :: rest =>
      let '(ws, p', _) := run_task task p in
      let '(ws', p'', rest') := run_later rest p' in
      (ws ++ ws', p'', rest')
  | _, _ => ([], p, tasks)
  end.

Definition settle_of (p : PromiseState) : Settle :=
  match p with
  | Pending => NeverSettles
  | Fulfilled => Fulfils
  | Rejected e => Rejects e
  end.

(** The writes of the first [due] tasks, which run during the tick that
    the caller yields. *)
Definition tick_writes (due : nat) (tasks : list (list CbStep)) : list ResOp :=
  concat (List.map (fun task => (run_task task Fulfilled).1.1) (take due tasks)).

(** [handle(req, res)] of the class that [Handler.from] returns. *)
Definition from_handle (cb : Callback) : Behaviour :=
  let '(ws, p) := run_executor cb in
  let '(during, p', rest) := run_later (cb_later cb) p in
  mkBehaviour ws (ReturnsPromise during (settle_of p'))
    (tick_writes (cb_due cb) rest).

Module Handler.

(** [Handler.from(express_handler)]: an anonymous class without
    constructor parameters. *)
Definition from (express_handler : Req → Callback) : Newable :=
  mkNewable EmptyString "class { handle(req, res) { } }" [] None
    (HandlerClass (fun _ req => from_handle (express_handler req))).

End Handler.

(** ** [Server] *)

Module Server.

(** [this.container]; the field is initialised with the root container. *)
Definition container_of (w : World) (sid : nat) : nat :=
  default RootContainer (container <$> servers w !! sid).

Definition getContainer (sid : nat) : M nat :=
  gets (fun w => container_of w sid).

(** [this.container = container] *)
Definition setContainer (sid c : nat) : M unit :=
  emit (EvSetContainer sid c) ;;
  modify (set_servers (alter (fun s => mkServerObj (express_server s) c) sid)).

(** Writes to a response, by the wrapper ([res_status], [res_send]) or by
    a handler ([handler_writes]).  A response that was not written to yet
    is a new one.  [res_status] only stores the code and cannot fail;
    [res_send] throws when the response is finalized already. *)
Definition update_response (f : Response → Response) (rid : nat)
    (rs : gmap nat Response) : gmap nat Response :=
  <[rid := f (default new_response (rs !! rid))]> rs.

Definition handler_writes (rid : nat) (ops : list ResOp) : M unit :=
  modify (set_responses (update_response (apply_ops ops) rid)).

Definition res_status (rid code : nat) : M unit :=
  emit (EvStatus rid code) ;;
  modify (set_responses (update_response (fun r => apply_op r (Status code)) rid)).

Definition res_headersSent (rid : nat) : M bool :=
  gets (fun w => headersSent (default new_response (responses w !! rid))).

Definition res_send (rid : nat) (arg : SendArg) : M unit :=
  emit (EvSend rid arg) ;;
  let* sent := res_headersSent rid in
  if sent then throw headers_sent_error
  else modify (set_responses
                 (update_response (fun r => apply_op r (send_op arg)) rid)).

Definition console_error (e : Thrown) : M unit :=
  modify (set_console (fun l => l ++ [e])).

(** Modelled from the spec: the transport's [listen(port, callback)].  The
    handle exists at once, in state [Binding]; [callback] waits for the
    ['listening'] event.  The port is taken to be one that [listen]
    accepts (0 to 65535); for another one the real call throws at once,
    which is not modelled. *)
Definition express_listen (port : N) (pid : nat) : M nat := fun w =>
  let tid := fresh_key (transports w) in
  (Ok tid, set_transports (insert tid (mkTransport port Binding [pid] [])) w).

(** [http_server.on('error', reject)] *)
Definition on_error (tid pid : nat) : M unit :=
  modify (set_transports (alter (fun t =>
    mkTransport (t_port t) (t_state t) (t_on_listening t) (t_on_error t ++ [pid])) tid)).

Definition new_promise : M nat := fun w =>
  let pid := fresh_key (promises w) in
  (Ok pid, set_promises (insert pid Pending) w).

Definition settle_promise (s : PromiseState) (pid : nat) : M unit :=
  modify (set_promises (alter (settle s) pid)).

(** [listen(port)]: the promise's executor runs inside the call. *)
Definition listen (sid : nat) (port : N) : M nat :=
  let* pid := new_promise in
  try_catch
    (let* http_server := express_listen port pid in
     let* c := getContainer sid in
     register c HTTP_SERVER_TOKEN (UseValue (VHttpServer http_server)) ;;
     on_error http_server pid)
    (fun e => settle_promise (Rejected e) pid) ;;
  ret pid.

(** Modelled from the spec: what the transport tells later.  Binding
    succeeded: the ['listening'] callbacks run.  Binding failed: the
    ['error'] listeners run with the error. *)
Inductive BindOutcome :=
  | Bound
  | BindError (e : Thrown).

Definition settle_all (s : PromiseState) (pids : list nat)
    (ps : gmap nat PromiseState) : gmap nat PromiseState :=
  fold_left (fun m pid => alter (settle s) pid m) pids ps.

Definition bind_outcome (tid : nat) (o : BindOutcome) (w : World) : World :=
  match transports w !! tid with
  | None => w
  | Some t =>
      match o with
      | Bound =>
          set_promises (settle_all Fulfilled (t_on_listening t))
            (set_transports (insert tid
               (mkTransport (t_port t) Accepting (t_on_listening t) (t_on_error t))) w)
      | BindError e =>
          set_promises (settle_all (Rejected e) (t_on_error t))
            (set_transports (insert tid
               (mkTransport (t_port t) (BindFailed e) (t_on_listening t) (t_on_error t))) w)
      end
  end.

(** [typeof path === 'object' && 'eager' in path && path.eager]: a RegExp
    and an array are objects without an [eager] key. *)
Definition is_eager (path : PathParams) : bool :=
  match path with
  | Config _ (Some true) => true
  | _ => false
  end.

(** [(typeof path === 'string') ? path :
     (typeof path === 'object' && 'path' in path) ? path.path : null] *)
Definition path_arg (path : PathParams) : PathArg :=
  match path with
  | Bare (PString s) => ArgPath (PString s)
  | Bare (PRegExp _) => ArgNull
  | Bare (PArray _) => ArgNull
  | Config p _ => ArgPath p
  end.

(** The part of [wrapHandler] that runs at bind time: [instance] starts as
    [null], is resolved at once when the path asks for it (outside any
    [try]), and the closure is returned. *)
Definition wrapHandler (sid : nat) (path : PathParams) (h : Newable) : M nat :=
  let* instance :=
    (if is_eager path
     then let* c := getContainer sid in
          let* i := resolve c h in ret (Some i)
     else ret None) in
  fun w =>
    let wid := fresh_key (wrappers w) in
    (Ok wid, set_wrappers (insert wid (mkWrapper sid h instance)) w).

Definition null_path_error : Thrown :=
  ThrownError "Cannot read properties of null (reading 'length')".

Definition use_without_handler_error : Thrown :=
  ThrownError "app.use() requires a middleware function".

(** Modelled from the spec: the call [express_server[method](path,
    ...callbacks)] of Express 4.  [get] with a single argument is the
    getter of a setting and registers nothing; [use] without a callback
    throws; a [null] path makes the compilation of the path throw; in the
    other cases the registration is appended to the route table. *)
Definition express_register (sid : nat) (method : Method) (path : PathArg)
    (callbacks : list nat) : M unit :=
  match method, callbacks, path with
  | GET, [], _ => ret tt
  | USE, [], _ => throw use_without_handler_error
  | _, _, ArgNull => throw null_path_error
  | _, _, ArgPath _ =>
      modify (set_servers
        (alter (fun s =>
                  mkServerObj
                    (express_server s ++ [mkRegistration method path callbacks])
                    (container s)) sid))
  end.

(** [attach]: the arguments of the Express call are evaluated first, the
    handlers wrapped in order; then the call is made. *)
Definition attach (sid : nat) (method : Method) (path : PathParams)
    (handlers : list Newable) : M nat :=
  let arg := path_arg path in
  let* callbacks := mapM (wrapHandler sid path) handlers in
  express_register sid method arg callbacks ;;
  ret sid.

Definition get (sid : nat) (path : PathParams) (handlers : list Newable) : M nat :=
  attach sid GET path handlers.

Definition post (sid : nat) (path : PathParams) (handlers : list Newable) : M nat :=
  attach sid POST path handlers.

Definition use (sid : nat) (path : PathParams) (handlers : list Newable) : M nat :=
  attach sid USE path handlers.

(** *** The closure returned by [wrapHandler] *)

(** [err?.message ?? err ?? `Error resolving handler: ${h}`] *)
Definition error_value (h : Newable) (err : Thrown) : SendArg :=
  match err with
  | ThrownError message => SendText message
  | ThrownOther text => SendText text
  | ThrownNumber n => SendNumber n
  | ThrownNullish => SendText ("Error resolving handler: " +:+ cls_source h)
  end.

Definition set_instance (wid : nat) (i : Instance) : M unit :=
  modify (set_wrappers
    (alter (fun wr => mkWrapper (w_this wr) (w_h wr) (Some i)) wid)).

(** [if (instance === null) { try { instance = resolve(h) }
     catch (err) { res.send(...); return } }]; [None] is the [return]. *)
Definition obtain_instance (wid : nat) (wr : Wrapper) (rid : nat)
    : M (option Instance) :=
  match w_instance wr with
  | Some i => ret (Some i)
  | None =>
      try_catch
        (let* c := getContainer (w_this wr) in
         let* i := resolve c (w_h wr) in
         set_instance wid i ;;
         ret (Some i))
        (fun err => res_send rid (error_value (w_h wr) err) ;; ret None)
  end.

(** [const result = instance.handle(req, res);
     if (result && result instanceof Promise) await result;] *)
Definition call_handle (cls : string) (deps : list Value) (b : Behaviour)
    (req : Req) (rid : nat) : M unit :=
  emit (EvHandle cls deps req rid) ;;
  handler_writes rid (b_sync b) ;;
  match b_completion b with
  | ReturnsVoid => ret tt
  | ThrowsSync e => throw e
  | ReturnsPromise during s =>
      emit EvAwait ;;
      handler_writes rid during ;;
      match s with
      | Fulfils => ret tt
      | Rejects e => throw e
      | NeverSettles => fun w => (Hang, w)
      end
  end.

(** [await new Promise(res => setTimeout(res, 0))] *)
Definition yield_tick (b : Behaviour) (rid : nat) : M unit :=
  emit EvYield ;;
  handler_writes rid (b_tick b).

Definition internal_server_error : string := "Internal server error".

(** The [try]/[catch] around the call of [handle].  When [send] throws in
    the [catch], the error leaves the closure and nothing is logged. *)
Definition run_handler (cls : string) (deps : list Value) (b : Behaviour)
    (req : Req) (rid : nat) : M unit :=
  try_catch
    (call_handle cls deps b req rid)
    (fun err =>
       res_status rid 500 ;;
       res_send rid (SendText internal_server_error) ;;
       console_error err).

(** What follows the [try]/[catch]: one tick, then [next()] unless the
    headers were sent. *)
Definition continue_chain (b : Behaviour) (rid next : nat) : M unit :=
  yield_tick b rid ;;
  let* sent := res_headersSent rid in
  emit (EvCheck rid sent) ;;
  if sent then ret tt else emit (EvNext next).

(** [instance.express_server(req, res, next)]: the request enters the
    nested server's route table. *)
Definition forward (sid : nat) (req : Req) (rid next : nat) : M unit :=
  emit (EvForward sid req rid next).

Definition dispatch (wr : Wrapper) (i : Instance) (req : Req)
    (rid next : nat) : M unit :=
  match i with
  | IServer nested =>
      let* c := getContainer (w_this wr) in
      let* child := createChildContainer c in
      setContainer nested child ;;
      forward nested req rid next
  | IHandler cls deps handle =>
      let b := handle req in
      run_handler cls deps b req rid ;;
      continue_chain b rid next
  end.

(** One call [(req, res, next)] of the closure [wid]. *)
Definition invoke (wid : nat) (req : Req) (rid next : nat) : M unit := fun w =>
  match wrappers w !! wid with
  | None => (Ok tt, w)
  | Some wr =>
      (let* got := obtain_instance wid wr rid in
       match got with
       | None => ret tt
       | Some i => dispatch wr i req rid next
       end) w
  end.

End Server.

(** The process at start: the root container, nothing else. *)
Definition boot : World :=
  mkWorld {[ RootContainer := mkContainer ∅ None ]} ∅ ∅ ∅ ∅ ∅ [] [].

(** ** Vocabulary of the properties *)

Definition response_of (w : World) (rid : nat) : Response :=
  default new_response (responses w !! rid).

Definition is_next (e : Event) : bool :=
  match e with EvNext _ => true | _ => false end.

Definition is_resolve (e : Event) : bool :=
  match e with EvResolve _ _ => true | _ => false end.

Definition is_send (e : Event) : bool :=
  match e with EvSend _ _ => true | _ => false end.

Definition is_status (e : Event) : bool :=
  match e with EvStatus _ _ => true | _ => false end.

(** Events of the continuation decision: the tick, the check, [next()]. *)
Definition is_decision (e : Event) : bool :=
  match e with EvYield | EvCheck _ _ | EvNext _ => true | _ => false end.

Definition count (p : Event → bool) (t : list Event) : nat :=
  length (List.filter p t).

(** The call of [handle] comes to an end. *)
Definition completes (c : Completion) : bool :=
  match c with
  | ReturnsPromise _ NeverSettles => false
  | _ => true
  end.

(** The value that [handle] throws, or that its promise is rejected with. *)
Definition failure (c : Completion) : option Thrown :=
  match c with
  | ThrowsSync e => Some e
  | ReturnsPromise _ (Rejects e) => Some e
  | _ => None
  end.

(** The writes that reach the response while the wrapper is inside
    [handle] or suspended on its promise. *)
Definition handle_writes (b : Behaviour) : list ResOp :=
  b_sync b ++
  match b_completion b with
  | ReturnsPromise during _ => during
  | _ => []
  end.

(** The response once the [catch] branch has run. *)
Definition failed_response : Response :=
  mkResponse 500 (Some Server.internal_server_error) true.

(** The error of [handle], if there is one, finds the response not yet
    finalized, so that the [send] of the [catch] goes through. *)
Definition contained (b : Behaviour) (r : Response) : bool :=
  match failure (b_completion b) with
  | None => true
  | Some _ => negb (headersSent (apply_ops (handle_writes b) r))
  end.

(** The response that the check after the tick looks at. *)
Definition response_at_check (b : Behaviour) (r : Response) : Response :=
  apply_ops (b_tick b)
    (match failure (b_completion b) with
     | Some _ => failed_response
     | None => apply_ops (handle_writes b) r
     end).

(** In one task of a raw callback: the first [throw], if any; whether
    [next] is called before it; the writes made before it. *)
Fixpoint thrown_by (steps : list CbStep) : option Thrown :=
  match steps with
  | [] => None
  | CbThrow e :: _ => Some e
  | _ :: k => thrown_by k
  end.

Fixpoint signals (steps : list CbStep) : bool :=
  match steps with
  | [] => false
  | CbNext _ :: _ => true
  | CbThrow _ :: _ => false
  | CbWrite _ :: k => signals k
  end.

Fixpoint writes_of (steps : list CbStep) : list ResOp :=
  match steps with
  | [] => []
  | CbWrite op :: k => op :: writes_of k
  | CbNext _ :: k => writes_of k
  | CbThrow _ :: _ => []
  end.

(** The callback raises [e]: in the call itself, or in a later task. *)
Definition cb_raises (cb : Callback) (e : Thrown) : Prop :=
  thrown_by (cb_sync cb) = Some e ∨
  ∃ task, task ∈ cb_later cb ∧ thrown_by task = Some e.

(** The callback calls the [next] it was given, at some point. *)
Definition cb_signals (cb : Callback) : Prop :=
  signals (cb_sync cb) = true ∨
  ∃ task, task ∈ cb_later cb ∧ signals task = true.

(** The caller of [handle] receives [e]: thrown by the call, or as the
    rejection of the promise it awaits. *)
Definition caller_receives (b : Behaviour) (e : Thrown) : Prop :=
  failure (b_completion b) = Some e.

Definition fulfils (b : Behaviour) : Prop :=
  ∃ during, b_completion b = ReturnsPromise during Fulfils.

(** Two worlds that differ at most in the closures. *)
Record only_wrappers (w w' : World) : Prop := {
  ow_containers : containers w' = containers w;
  ow_servers : servers w' = servers w;
  ow_responses : responses w' = responses w;
  ow_transports : transports w' = transports w;
  ow_promises : promises w' = promises w;
  ow_console : console w' = console w;
  ow_trace : trace w' = trace w
}.

(** What binding may change: closures are added, server objects may be
    created by an eager resolution, resolutions are traced. *)
Record bind_frame (w w' : World) : Prop := {
  bf_containers : containers w' = containers w;
  bf_responses : responses w' = responses w;
  bf_transports : transports w' = transports w;
  bf_promises : promises w' = promises w;
  bf_console : console w' = console w;
  bf_servers : ∀ s so, servers w !! s = Some so → servers w' !! s = Some so;
  bf_container_of : ∀ s, Server.container_of w' s = Server.container_of w s;
  bf_wrappers : wrappers w ⊆ wrappers w';
  bf_trace : ∃ ev, trace w' = trace w ++ ev ∧ List.filter (negb ∘ is_resolve) ev = []
}.

(** ** Scenarios *)

Module Scenario.
Import Server.

Definition boom : Thrown := ThrownError "boom".

(** A handler that answers, as in the hello-world example. *)
Definition HelloWorld : Newable :=
  mkNewable "HelloWorld" "class HelloWorld { }" [] None
    (HandlerClass (fun _ _ => mkBehaviour [Send "Hello world!"] ReturnsVoid [])).

(** A middleware that writes nothing. *)
Definition Inspect : Newable :=
  mkNewable "Inspect" "class Inspect { }" [] None
    (HandlerClass (fun _ _ => mkBehaviour [] (ReturnsPromise [] Fulfils) [])).

(** A handler whose promise is rejected. *)
Definition Failing : Newable :=
  mkNewable "Failing" "class Failing { }" [] None
    (HandlerClass (fun _ _ => mkBehaviour [] (ReturnsPromise [] (Rejects boom)) [])).



(** One server, one response object (number 7), and the closure [0] of a
    lazy registration of [h] at ["/"]. *)
Definition served (h : Newable) : World :=
  snd ((new_server ;;
        attach 0 GET (Bare (PString "/")) [h] ;;
        modify (set_responses (insert 7 new_response))) boot).

Definition lazy_wrapper (h : Newable) : Wrapper := mkWrapper 0 h None.

Definition DATABASE_TOKEN : string := "DATABASE_TOKEN".

(** A handler whose constructor asks for the database. *)
Definition NeedsDb : Newable :=
  mkNewable "NeedsDb" "class NeedsDb { }" [DATABASE_TOKEN] None
    (HandlerClass (fun _ _ => mkBehaviour [Send "ok"] ReturnsVoid [])).

(** A server to nest, as in the nested-server example. *)
Definition ApiServer : Newable :=
  mkNewable "ApiServer" "class ApiServer extends Server { }" [] None ServerClass.

(** A raw callback that fails in a later task, as an [async] function
    whose promise is rejected does. *)
Definition rejecting_later : Callback := mkCallback [] [[CbThrow boom]] 0.

(** A raw callback that calls [next] and then throws. *)
Definition next_then_throw : Callback :=
  mkCallback [CbNext None; CbThrow boom] [] 0.

(** A raw callback that reports its error through [next(err)]. *)
Definition next_with_error : Callback := mkCallback [CbNext (Some boom)] [] 0.

(** The first request to a lazy registration of [NeedsDb], with no
    database registered. *)
Definition first_request : World :=
  snd (invoke 0 "/" 7 100 (served NeedsDb)).

(** [listen(8080)] has returned; the transport has not reported yet. *)
Definition listening : World :=
  snd (listen 0 8080%N (served HelloWorld)).

(** The database is [v0] when two registrations of [NeedsDb] are bound,
    the first with [eager: true]; it is replaced by [v1] before the first
    request reaches either. *)
Definition rebound : World :=
  snd ((new_server ;;
        register RootContainer DATABASE_TOKEN (UseValue (VText "v0")) ;;
        get 0 (Config (PString "/a") (Some true)) [NeedsDb] ;;
        get 0 (Config (PString "/b") None) [NeedsDb] ;;
        register RootContainer DATABASE_TOKEN (UseValue (VText "v1")) ;;
        invoke 0 "/a" 7 100 ;;
        invoke 1 "/b" 8 101) boot).

End Scenario.

(** ** Earlier revisions of [Server] *)

(** The revision with a container but without [eager], without
    [setContainer] and without any [try]: [attach] hands the path on as it
    is, and the closure lets every error leave. *)
Module Server_v1.

(** [wrapHandler(h)]: [instance] starts as [null]; nothing is resolved at
    bind time. *)
Definition wrapHandler (sid : nat) (h : Newable) : M nat := fun w =>
  let wid := fresh_key (wrappers w) in
  (Ok wid, set_wrappers (insert wid (mkWrapper sid h None)) w).

(** [this.express_server[method]?.(path, ...handlers.map(...))] *)
Definition attach (sid : nat) (method : Method) (path : PathParamsStr)
    (handlers : list Newable) : M nat :=
  let* callbacks := mapM (wrapHandler sid) handlers in
  Server.express_register sid method (ArgPath path) callbacks ;;
  ret sid.

(** [if (instance === null) instance = this.container.resolve(h)] *)
Definition obtain_instance (wid : nat) (wr : Wrapper) : M Instance :=
  match w_instance wr with
  | Some i => ret i
  | None =>
      let* c := Server.getContainer (w_this wr) in
      let* i := resolve c (w_h wr) in
      Server.set_instance wid i ;;
      ret i
  end.

Definition dispatch (i : Instance) (req : Req) (rid next : nat) : M unit :=
  match i with
  | IServer nested => Server.forward nested req rid next
  | IHandler cls deps handle =>
      let b := handle req in
      Server.call_handle cls deps b req rid ;;
      Server.continue_chain b rid next
  end.

(** One call [(req, res, next)] of the closure [wid]. *)
Definition invoke (wid : nat) (req : Req) (rid next : nat) : M unit := fun w =>
  match wrappers w !! wid with
  | None => (Ok tt, w)
  | Some wr =>
      (let* i := obtain_instance wid wr in dispatch i req rid next) w
  end.

(** [this.express_server.listen(port, resolve).on('error', reject)] *)
Definition listen (sid : nat) (port : N) : M nat :=
  let* pid := Server.new_promise in
  try_catch
    (let* http_server := Server.express_listen port pid in
     Server.on_error http_server pid)
    (fun e => Server.settle_promise (Rejected e) pid) ;;
  ret pid.

End Server_v1.

(** The first revision: a static [wrapHandler] on the global container, no
    nested servers, and an empty [catch] around the call of [handle]. *)
Module Server_v0.

(** The static method captures no [this]; the field of the record is not
    read by the closure. *)
Definition wrapHandler (h : Newable) : M nat := fun w =>
  let wid := fresh_key (wrappers w) in
  (Ok wid, set_wrappers (insert wid (mkWrapper 0 h None)) w).

Definition attach (sid : nat) (method : Method) (path : PathParamsStr)
    (handlers : list Newable) : M nat :=
  let* callbacks := mapM wrapHandler handlers in
  Server.express_register sid method (ArgPath path) callbacks ;;
  ret sid.

(** [if (instance === null) instance = container.resolve(h)], on the
    global container. *)
Definition obtain_instance (wid : nat) (wr : Wrapper) : M Instance :=
  match w_instance wr with
  | Some i => ret i
  | None =>
      let* i := resolve RootContainer (w_h wr) in
      Server.set_instance wid i ;;
      ret i
  end.

(** [try { result = instance.handle(req, res); await } catch { }], then
    the tick and the check.  The type admits handler classes only; an
    object without [handle] makes the call throw inside the [try]. *)
Definition dispatch (i : Instance) (req : Req) (rid next : nat) : M unit :=
  match i with
  | IHandler cls deps handle =>
      let b := handle req in
      try_catch (Server.call_handle cls deps b req rid) (fun _ => ret tt) ;;
      Server.continue_chain b rid next
  | IServer _ =>
      try_catch (throw (ThrownError "instance.handle is not a function"))
        (fun _ => ret tt) ;;
      Server.continue_chain (mkBehaviour [] ReturnsVoid []) rid next
  end.

Definition invoke (wid : nat) (req : Req) (rid next : nat) : M unit := fun w =>
  match wrappers w !! wid with
  | None => (Ok tt, w)
  | Some wr =>
      (let* i := obtain_instance wid wr in dispatch i req rid next) w
  end.

End Server_v0.

(** ** More scenarios *)

Module Cases.
Import Server.

(** A handler whose promise never settles. *)
Definition Stalling : Newable :=
  mkNewable "Stalling" "class Stalling { }" [] None
    (HandlerClass (fun _ _ =>
       mkBehaviour [Status 202] (ReturnsPromise [] NeverSettles) [])).

(** A raw callback that only answers, as in the nested-server example. *)
Definition answers : Callback := mkCallback [CbWrite (Send "You found the API!")] [] 0.

(** A raw callback that calls [next] at once, and one that answers first. *)
Definition passes : Callback := mkCallback [CbNext None] [] 0.
Definition answers_then_passes : Callback :=
  mkCallback [CbWrite (Send "done"); CbNext None] [] 0.

(** A raw callback that sets a timer without delay to answer, and calls
    [next]: its timer fires before the one the wrapper sets afterwards. *)
Definition passes_then_answers : Callback :=
  mkCallback [CbNext None] [[CbWrite (Send "late")]] 1.

(** The closure [0] of [Scenario.served], with its instance. *)
Definition cached (h : Newable) (i : Instance) : Wrapper := mkWrapper 0 h (Some i).

(** A world where the closure [0] holds a nested server, number 1. *)
Definition nesting : World :=
  snd (invoke 0 "/" 7 100 (Scenario.served Scenario.ApiServer)).

(** The same registration made by the two earlier revisions. *)
Definition served_v1 (h : Newable) : World :=
  snd ((new_server ;;
        Server_v1.attach 0 GET (PString "/") [h] ;;
        modify (set_responses (insert 7 new_response))) boot).

Definition served_v0 (h : Newable) : World :=
  snd ((new_server ;;
        Server_v0.attach 0 GET (PString "/") [h] ;;
        modify (set_responses (insert 7 new_response))) boot).

End Cases.


(** * Properties *)

(** ** Responses and traces *)

Lemma count_app p t1 t2 : count p (t1 ++ t2) = count p t1 + count p t2.
Proof. unfold count. by rewrite List.filter_app, length_app. Qed.

Lemma count_cons p e t :
  count p (e :: t) = (if p e then 1 else 0) + count p t.
Proof. unfold count. cbn. by destruct (p e). Qed.

Lemma count_filter_nil p q ev :
  List.filter (negb ∘ q) ev = [] →
  (∀ e, q e = true → p e = false) →
  count p ev = 0.
Proof.
  intros Hq Hpq. unfold count.
  induction ev as [|e ev IH]; [done|]. cbn in *.
  destruct (q e) eqn:Hqe; cbn in *; [|discriminate].
  rewrite (Hpq e Hqe). by apply IH.
Qed.

(** What comes before the tick holds no call of [next()]. *)
Lemma no_decision_no_next ev : count is_decision ev = 0 → count is_next ev = 0.
Proof.
  unfold count. induction ev as [|[] ev IH]; cbn; try done; auto.
Qed.

Lemma apply_ops_app ops1 ops2 r :
  apply_ops (ops1 ++ ops2) r = apply_ops ops2 (apply_ops ops1 r).
Proof. unfold apply_ops. apply fold_left_app. Qed.

(** Once sent, the headers stay sent. *)
Lemma headersSent_apply_ops ops r :
  headersSent r = true → headersSent (apply_ops ops r) = true.
Proof.
  revert r. induction ops as [|op ops IH]; intros r Hr; [done|].
  apply IH. unfold apply_op. by rewrite Hr.
Qed.

Lemma response_of_update f rid (w : World) :
  default new_response (Server.update_response f rid (responses w) !! rid)
  = f (response_of w rid).
Proof. unfold Server.update_response, response_of. by rewrite lookup_insert_eq. Qed.

(** ** The container *)

Lemma resolve_token_pure c tok w :
  (resolve_token c tok w).2 = w ∧ (resolve_token c tok w).1 ≠ Hang.
Proof.
  unfold resolve_token.
  destruct (find_provider _ _ _ _) as [[v|[e|v]]|]; by split.
Qed.

Lemma mapM_resolve_token_pure c toks w :
  (mapM (resolve_token c) toks w).2 = w ∧
  (mapM (resolve_token c) toks w).1 ≠ Hang.
Proof.
  induction toks as [|tok toks IH]; [by split|].
  simpl. unfold bind.
  destruct (resolve_token_pure c tok w) as [Hw Hh].
  destruct (resolve_token c tok w) as [[v|e|] w']; simpl in *; subst; try done.
  destruct IH as [IHw IHh].
  destruct (mapM (resolve_token c) toks w) as [[vs|e|] w'];
    simpl in *; subst; done.
Qed.

(** The footprint of [container.resolve]: one trace event and, for a
    server class, one new server object. *)
Definition resolving (c : nat) (h : Newable) (w : World) : World :=
  set_trace (fun t => t ++ [EvResolve c (cls_name h)]) w.

Lemma resolve_spec c h w :
  (∃ e, resolve c h w = (Raise e, resolving c h w)) ∨
  (∃ cls deps handle,
      resolve c h w = (Ok (IHandler cls deps handle), resolving c h w)) ∨
  resolve c h w =
    (Ok (IServer (fresh_key (servers w))),
     set_servers (insert (fresh_key (servers w)) (mkServerObj [] RootContainer))
       (resolving c h w)).
Proof.
  unfold resolve, emit, modify, bind. fold (resolving c h w).
  destruct (mapM_resolve_token_pure c (cls_deps h) (resolving c h w)) as [Hw Hh].
  destruct (mapM (resolve_token c) (cls_deps h) (resolving c h w))
    as [[deps|e|] w']; simpl in *; subst; [|eauto|done].
  destruct (cls_ctor_throws h) as [e|]; [left; by exists e|].
  destruct (cls_kind h) as [handle|]; [right; left; eauto|].
  right; right. reflexivity.
Qed.

(** A new server object does not change what [this.container] reads. *)
Lemma container_of_new_server sid (w : World) :
  Server.container_of
    (set_servers (insert (fresh_key (servers w)) (mkServerObj [] RootContainer)) w) sid
  = Server.container_of w sid.
Proof.
  unfold Server.container_of. simpl.
  destruct (decide (fresh_key (servers w) = sid)) as [<-|Hne].
  - rewrite lookup_insert_eq.
    assert (servers w !! fresh_key (servers w) = None) as ->; [|done].
    apply not_elem_of_dom. apply is_fresh.
  - by rewrite lookup_insert_ne.
Qed.

(** ** Binding without the eager flag *)

Section Lazy.
Variables (sid : nat) (path : PathParams).
Hypothesis Hlazy : Server.is_eager path = false.

Lemma wrapHandler_lazy h w :
  Server.wrapHandler sid path h w =
    (Ok (fresh_key (wrappers w)),
     set_wrappers (insert (fresh_key (wrappers w)) (mkWrapper sid h None)) w).
Proof. unfold Server.wrapHandler, bind, ret. by rewrite Hlazy. Qed.

(** Wrapping without the eager flag only creates closures, each with an
    empty [instance]. *)
Lemma mapM_wrapHandler_lazy hs w :
  ∃ ws w',
    mapM (Server.wrapHandler sid path) hs w = (Ok ws, w') ∧
    only_wrappers w w' ∧
    wrappers w ⊆ wrappers w' ∧
    Forall2 (fun wid h => wrappers w' !! wid = Some (mkWrapper sid h None)) ws hs.
Proof.
  revert w. induction hs as [|h hs IH]; intros w.
  - exists [], w. repeat split; [done|constructor].
  - simpl. unfold bind at 1. rewrite wrapHandler_lazy.
    set (wid := fresh_key (wrappers w)).
    set (w1 := set_wrappers _ w).
    destruct (IH w1) as (ws & w' & Hrun & Hw' & Hsub & Hall).
    exists (wid :: ws), w'. unfold bind. rewrite Hrun. simpl.
    assert (wrappers w !! wid = None) as Hfresh
      by (apply not_elem_of_dom, is_fresh).
    repeat split; try apply Hw'.
    + etrans; [|exact Hsub]. simpl. by apply insert_subseteq.
    + constructor; [|done].
      eapply lookup_weaken; [|exact Hsub]. simpl. apply lookup_insert_eq.
Qed.
End Lazy.

(** ** C8: the path handed to the route table *)

(** C8. For a registration whose path is a bare RegExp or a bare array of
    patterns, [attach] (and so [get], [post] and [use]) wraps the handlers
    and makes the Express call with [null] as the path, not with the
    pattern it was given.  Express does not take a [null] path: when a
    handler is given the call throws, out of [attach], and the route
    table stays as it was. *)
Theorem attach_bare_pattern_passes_null sid method p handlers w :
  (∀ s, p ≠ PString s) →
  Server.path_arg (Bare p) = ArgNull ∧
  ∃ callbacks w1,
    mapM (Server.wrapHandler sid (Bare p)) handlers w = (Ok callbacks, w1) ∧
    length callbacks = length handlers ∧
    Server.attach sid method (Bare p) handlers w =
      (let* _ := Server.express_register sid method ArgNull callbacks in
       ret sid) w1 ∧
    (handlers ≠ [] →
     Server.attach sid method (Bare p) handlers w
       = (Raise Server.null_path_error, w1) ∧
     servers w1 = servers w).
Proof.
  intros Hp.
  assert (Server.path_arg (Bare p) = ArgNull) as Harg.
  { destruct p as [s| |]; [by destruct (Hp s)|done|done]. }
  split; [done|].
  destruct (mapM_wrapHandler_lazy sid (Bare p) eq_refl handlers w)
    as (ws & w1 & Hrun & Hw1 & _ & Hall).
  exists ws, w1. split; [done|].
  pose proof (Forall2_length _ _ _ Hall) as Hlen.
  split; [done|].
  assert (Server.attach sid method (Bare p) handlers w =
            (let* _ := Server.express_register sid method ArgNull ws in
             ret sid) w1) as Hattach.
  { unfold Server.attach. rewrite Harg. unfold bind at 1. by rewrite Hrun. }
  split; [done|].
  intros Hne. rewrite Hattach. split; [|apply (ow_servers _ _ Hw1)].
  destruct ws as [|wid ws]; [by destruct handlers|].
  by destruct method.
Qed.

Lemma attach_bare_pattern_passes_null_witness :
  (Server.get 0 (Bare (PRegExp "^/api")) [Scenario.HelloWorld]
     (Scenario.served Scenario.Inspect)).1 = Raise Server.null_path_error.
Proof.
  destruct (attach_bare_pattern_passes_null 0 GET (PRegExp "^/api")
              [Scenario.HelloWorld] (Scenario.served Scenario.Inspect))
    as (_ & callbacks & w1 & _ & _ & _ & Hthrows).
  - intros s. discriminate.
  - destruct Hthrows as [Hraise _]; [discriminate|].
    unfold Server.get. by rewrite Hraise.
Defined.

(** ** The dispatch wrapper *)

Section Wrapper.
Import Server.

Local Arguments resolve : simpl never.
Local Arguments apply_op : simpl never.

Ltac run_defs :=
  unfold continue_chain, run_handler, call_handle, yield_tick, res_headersSent,
    res_status, res_send, console_error, handler_writes, forward, setContainer,
    getContainer, createChildContainer, set_instance,
    try_catch, throw, emit, modify, gets, bind, ret.

Ltac lookup_response :=
  unfold response_of, update_response; cbn;
  repeat rewrite lookup_insert_eq; cbn.

Lemma continue_chain_spec b rid next w :
  let r := apply_ops (b_tick b) (response_of w rid) in
  ∃ w2,
    continue_chain b rid next w = (Ok tt, w2) ∧
    response_of w2 rid = r ∧
    console w2 = console w ∧
    wrappers w2 = wrappers w ∧
    containers w2 = containers w ∧
    servers w2 = servers w ∧
    trace w2 = trace w ++ EvYield :: EvCheck rid (headersSent r) ::
                 (if headersSent r then [] else [EvNext next]).
Proof.
  intros r. run_defs. cbn. rewrite response_of_update. fold r.
  destruct (headersSent r) eqn:Hs; cbn;
    (eexists; split; [reflexivity|]); cbn;
    rewrite <- ?(assoc_L (++)); cbn; repeat split; by lookup_response.
Qed.

(** [send], case by case. *)
Lemma res_send_unsent rid arg w :
  headersSent (response_of w rid) = false →
  res_send rid arg w =
    (Ok tt,
     set_responses (update_response (fun r => apply_op r (send_op arg)) rid)
       (set_trace (fun t => t ++ [EvSend rid arg]) w)).
Proof. intros Hs. run_defs. cbn. fold (response_of w rid). by rewrite Hs. Qed.

Lemma res_send_sent rid arg w :
  headersSent (response_of w rid) = true →
  res_send rid arg w =
    (Raise headers_sent_error, set_trace (fun t => t ++ [EvSend rid arg]) w).
Proof. intros Hs. run_defs. cbn. fold (response_of w rid). by rewrite Hs. Qed.

Lemma apply_op_unsent r op :
  headersSent r = false →
  apply_op r op =
    match op with
    | Status code => mkResponse code (body r) false
    | Send b => mkResponse (statusCode r) (Some b) true
    | SendStatus code => mkResponse code None true
    end.
Proof. intros Hs. unfold apply_op. by rewrite Hs. Qed.

Lemma apply_op_sent r op : headersSent r = true → apply_op r op = r.
Proof. intros Hs. unfold apply_op. by rewrite Hs. Qed.

(** The call of [handle], up to the point where the [catch] would take
    over. *)
Lemma call_handle_spec cls deps b req rid w :
  ∃ wh,
    call_handle cls deps b req rid w =
      (match b_completion b with
       | ReturnsVoid | ReturnsPromise _ Fulfils => Ok tt
       | ThrowsSync e | ReturnsPromise _ (Rejects e) => Raise e
       | ReturnsPromise _ NeverSettles => Hang
       end, wh) ∧
    trace wh =
      trace w ++ EvHandle cls deps req rid ::
      match b_completion b with ReturnsPromise _ _ => [EvAwait] | _ => [] end ∧
    response_of wh rid = apply_ops (handle_writes b) (response_of w rid) ∧
    console wh = console w ∧
    wrappers wh = wrappers w ∧
    containers wh = containers w ∧
    servers wh = servers w.
Proof.
  run_defs. unfold handle_writes.
  destruct b as [sy c tk]; cbn.
  destruct c as [|e|d [|e|]]; cbn;
    (eexists; split; [reflexivity|]); cbn;
    rewrite <- ?(assoc_L (++)), ?app_nil_r; cbn; repeat split; try done;
    lookup_response; by rewrite ?apply_ops_app.
Qed.

Lemma res_status_spec rid code w :
  ∃ w1,
    res_status rid code w = (Ok tt, w1) ∧
    trace w1 = trace w ++ [EvStatus rid code] ∧
    response_of w1 rid = apply_op (response_of w rid) (Status code) ∧
    console w1 = console w ∧
    wrappers w1 = wrappers w ∧
    containers w1 = containers w ∧
    servers w1 = servers w.
Proof.
  eexists. split; [reflexivity|]. cbn. repeat split.
  unfold response_of at 1. cbn. apply response_of_update.
Qed.

(** The [catch] block, when the response is not finalized and when it
    is. *)
Lemma catch_block_unsent rid err w :
  headersSent (response_of w rid) = false →
  ∃ wc,
    (res_status rid 500 ;; res_send rid (SendText internal_server_error) ;;
     console_error err) w = (Ok tt, wc) ∧
    trace wc =
      trace w ++ [EvStatus rid 500; EvSend rid (SendText internal_server_error)] ∧
    response_of wc rid = failed_response ∧
    console wc = console w ++ [err] ∧
    wrappers wc = wrappers w ∧
    containers wc = containers w ∧
    servers wc = servers w.
Proof.
  intros Hs.
  destruct (res_status_spec rid 500 w)
    as (w1 & H1 & Ht1 & Hr1 & Hc1 & Hw1 & Hct1 & Hsv1).
  rewrite (apply_op_unsent _ _ Hs) in Hr1.
  unfold bind. rewrite H1, (res_send_unsent rid _ w1) by by rewrite Hr1.
  eexists. split; [reflexivity|]. cbn.
  rewrite Ht1, <- (assoc_L (++)). repeat split; try congruence.
  unfold response_of at 1. cbn. rewrite response_of_update, Hr1.
  by rewrite apply_op_unsent.
Qed.

Lemma catch_block_sent rid err w :
  headersSent (response_of w rid) = true →
  ∃ wc,
    (res_status rid 500 ;; res_send rid (SendText internal_server_error) ;;
     console_error err) w = (Raise headers_sent_error, wc) ∧
    trace wc =
      trace w ++ [EvStatus rid 500; EvSend rid (SendText internal_server_error)] ∧
    response_of wc rid = response_of w rid ∧
    console wc = console w ∧
    wrappers wc = wrappers w ∧
    containers wc = containers w ∧
    servers wc = servers w.
Proof.
  intros Hs.
  destruct (res_status_spec rid 500 w)
    as (w1 & H1 & Ht1 & Hr1 & Hc1 & Hw1 & Hct1 & Hsv1).
  rewrite (apply_op_sent _ _ Hs) in Hr1.
  unfold bind. rewrite H1, (res_send_sent rid _ w1) by by rewrite Hr1, Hs.
  eexists. split; [reflexivity|]. cbn.
  rewrite Ht1, <- (assoc_L (++)). repeat split; try congruence.
  exact Hr1.
Qed.

Lemma run_handler_unfold cls deps b req rid w :
  run_handler cls deps b req rid w =
    match call_handle cls deps b req rid w with
    | (Raise err, wh) =>
        (res_status rid 500 ;; res_send rid (SendText internal_server_error) ;;
         console_error err) wh
    | other => other
    end.
Proof. reflexivity. Qed.

Lemma run_handler_spec cls deps b req rid w :
  completes (b_completion b) = true →
  contained b (response_of w rid) = true →
  ∃ wc pre,
    run_handler cls deps b req rid w = (Ok tt, wc) ∧
    response_of wc rid =
      match failure (b_completion b) with
      | Some _ => failed_response
      | None => apply_ops (handle_writes b) (response_of w rid)
      end ∧
    console wc = console w ++ option_list (failure (b_completion b)) ∧
    wrappers wc = wrappers w ∧
    containers wc = containers w ∧
    servers wc = servers w ∧
    count is_decision pre = 0 ∧
    List.filter is_send pre =
      (if failure (b_completion b) is Some _
       then [EvSend rid (SendText internal_server_error)] else []) ∧
    trace wc = trace w ++ EvHandle cls deps req rid :: pre.
Proof.
  intros Hc Hcont. rewrite run_handler_unfold.
  destruct (call_handle_spec cls deps b req rid w)
    as (wh & -> & Ht & Hr & Hcon & Hwr & Hct & Hsv).
  unfold contained in Hcont.
  destruct (b_completion b) as [|e|d [|e|]] eqn:Hb;
    cbn -[res_status res_send console_error bind] in *; try discriminate.
  - exists wh, []. rewrite app_nil_r. by repeat split.
  - apply negb_true_iff in Hcont. rewrite <- Hr in Hcont.
    destruct (catch_block_unsent rid e wh Hcont)
      as (wc & -> & Htc & Hrc & Hcc & Hwc & Hctc & Hsc).
    exists wc, [EvStatus rid 500; EvSend rid (SendText internal_server_error)].
    rewrite Htc, Ht, <- (assoc_L (++)). repeat split; try congruence.
  - exists wh, [EvAwait]. rewrite app_nil_r. by repeat split.
  - apply negb_true_iff in Hcont. rewrite <- Hr in Hcont.
    destruct (catch_block_unsent rid e wh Hcont)
      as (wc & -> & Htc & Hrc & Hcc & Hwc & Hctc & Hsc).
    exists wc, [EvAwait; EvStatus rid 500; EvSend rid (SendText internal_server_error)].
    rewrite Htc, Ht, <- (assoc_L (++)). repeat split; try congruence.
Qed.

(** An error of [handle] that finds the response finalized: the [send] of
    the [catch] throws, and its error is what leaves. *)
Lemma run_handler_uncontained cls deps b req rid w e :
  failure (b_completion b) = Some e →
  headersSent (apply_ops (handle_writes b) (response_of w rid)) = true →
  ∃ wc ev,
    run_handler cls deps b req rid w = (Raise headers_sent_error, wc) ∧
    trace wc = trace w ++ ev ∧
    count is_decision ev = 0 ∧
    response_of wc rid = apply_ops (handle_writes b) (response_of w rid) ∧
    console wc = console w ∧
    wrappers wc = wrappers w.
Proof.
  intros Hf Hsent. rewrite run_handler_unfold.
  destruct (call_handle_spec cls deps b req rid w)
    as (wh & -> & Ht & Hr & Hcon & Hwr & _).
  rewrite <- Hr in Hsent.
  destruct (b_completion b) as [|e'|d [|e'|]] eqn:Hb;
    cbn -[res_status res_send console_error bind] in *; try discriminate;
    destruct (catch_block_sent rid e' wh Hsent)
      as (wc & -> & Htc & Hrc & Hcc & Hwc & _);
    eexists wc, _; (split; [reflexivity|]);
    rewrite Htc, Ht, <- (assoc_L (++));
    (split; [reflexivity|]); repeat split; congruence.
Qed.

(** Whatever [handle] does, the [try]/[catch] around it decides nothing,
    asks the container nothing and leaves the closures alone. *)
Lemma run_handler_frame cls deps b req rid w :
  ∃ res wc ev,
    run_handler cls deps b req rid w = (res, wc) ∧
    trace wc = trace w ++ ev ∧
    count is_decision ev = 0 ∧
    count is_resolve ev = 0 ∧
    wrappers wc = wrappers w.
Proof.
  rewrite run_handler_unfold.
  destruct (call_handle_spec cls deps b req rid w)
    as (wh & -> & Ht & Hr & Hcon & Hwr & _).
  destruct (b_completion b) as [|e|d [|e|]] eqn:Hb;
    cbn -[res_status res_send console_error bind] in *;
    try (eexists _, wh, _; split; [reflexivity|]; split; [exact Ht|]; done);
    (destruct (headersSent (response_of wh rid)) eqn:Hs;
     [destruct (catch_block_sent rid e wh Hs) as (wc & -> & Htc & _ & _ & Hwc & _)
     |destruct (catch_block_unsent rid e wh Hs) as (wc & -> & Htc & _ & _ & Hwc & _)];
     eexists _, wc, _; (split; [reflexivity|]);
     rewrite Htc, Ht, <- (assoc_L (++));
     (split; [reflexivity|]); repeat split; congruence).
Qed.

(** After the instance is there, the wrapper asks the container nothing,
    calls [next()] at most once and leaves the closures alone. *)
Lemma dispatch_frame wr i req rid next w :
  ∃ res w2 ev,
    dispatch wr i req rid next w = (res, w2) ∧
    trace w2 = trace w ++ ev ∧
    count is_resolve ev = 0 ∧
    (count is_next ev ≤ 1)%nat ∧
    wrappers w2 = wrappers w.
Proof.
  destruct i as [cls deps handle|nested].
  - unfold dispatch. unfold bind at 1.
    destruct (run_handler_frame cls deps (handle req) req rid w)
      as (res & wc & ev & -> & Ht & Hd & Hr & Hw).
    pose proof (no_decision_no_next ev Hd) as Hn.
    destruct res as [[]|e|].
    + destruct (continue_chain_spec (handle req) rid next wc)
        as (w2 & -> & _ & _ & Hw2 & _ & _ & Ht2).
      eexists _, w2, _. split; [reflexivity|].
      rewrite Ht2, Ht, <- (assoc_L (++)). split; [reflexivity|].
      rewrite !count_app, Hr, Hn.
      destruct (headersSent _); repeat split; cbn; (lia || congruence).
    + eexists _, wc, ev. repeat split; (done || lia).
    + eexists _, wc, ev. repeat split; (done || lia).
  - run_defs. cbn. eexists _, _, _. split; [reflexivity|]. cbn.
    rewrite <- ?(assoc_L (++)). split; [reflexivity|]. repeat split; cbn; lia.
Qed.

Lemma obtain_instance_cached wid wr rid i w :
  w_instance wr = Some i → obtain_instance wid wr rid w = (Ok (Some i), w).
Proof. intros H. unfold obtain_instance. by rewrite H. Qed.

Lemma obtain_instance_lazy wid wr rid w :
  w_instance wr = None →
  let c := container_of w (w_this wr) in
  let h := w_h wr in
  (∃ e w1,
      resolve c h w = (Raise e, resolving c h w) ∧
      obtain_instance wid wr rid w =
        (if headersSent (response_of w rid)
         then Raise headers_sent_error else Ok None, w1) ∧
      trace w1 = trace w ++ [EvResolve c (cls_name h); EvSend rid (error_value h e)] ∧
      response_of w1 rid = apply_op (response_of w rid) (send_op (error_value h e)) ∧
      wrappers w1 = wrappers w ∧
      console w1 = console w ∧
      containers w1 = containers w ∧
      servers w1 = servers w) ∨
  (∃ i w1,
      resolve c h w = (Ok i, w1) ∧
      obtain_instance wid wr rid w =
        (Ok (Some i),
         set_wrappers (alter (fun wr => mkWrapper (w_this wr) (w_h wr) (Some i)) wid) w1)).
Proof.
  intros Hnone c h. unfold obtain_instance. rewrite Hnone.
  unfold try_catch, getContainer, gets, set_instance, modify, bind at 1 2 3, ret.
  cbn. fold c h.
  destruct (resolve_spec c h w) as [[e He]|[(cls & deps & handle & Hh)|Hs]].
  - left. rewrite He. cbn.
    assert (response_of (resolving c h w) rid = response_of w rid) as Hsame by done.
    destruct (headersSent (response_of w rid)) eqn:Hsent.
    + unfold bind. rewrite res_send_sent by by rewrite Hsame.
      eexists e, _. split; [done|]. split; [reflexivity|]. cbn.
      rewrite <- (assoc_L (++)). repeat split; try done.
      by rewrite apply_op_sent.
    + unfold bind. rewrite res_send_unsent by by rewrite Hsame.
      eexists e, _. split; [done|]. split; [reflexivity|]. cbn.
      rewrite <- (assoc_L (++)). repeat split; try done.
      unfold response_of at 1. cbn. by rewrite response_of_update.
  - right. eexists _, _. split; [exact Hh|]. unfold bind. by rewrite Hh.
  - right. eexists _, _. split; [exact Hs|]. unfold bind. by rewrite Hs.
Qed.

(** Obtaining the instance writes to no response and decides nothing. *)
Lemma obtain_instance_some wid wr rid i w w1 :
  obtain_instance wid wr rid w = (Ok (Some i), w1) →
  responses w1 = responses w ∧
  console w1 = console w ∧
  containers w1 = containers w ∧
  ∃ ev, trace w1 = trace w ++ ev ∧ List.filter (negb ∘ is_resolve) ev = [].
Proof.
  destruct (w_instance wr) as [i'|] eqn:Hi.
  - rewrite (obtain_instance_cached _ _ _ i') by done. intros [= <- <-].
    repeat split; try done. exists []. by rewrite app_nil_r.
  - destruct (obtain_instance_lazy wid wr rid w Hi)
      as [(e & w' & _ & -> & _)|(i' & w' & Hr & ->)];
      [by destruct (headersSent (response_of w rid))|].
    intros [= <- <-].
    destruct (resolve_spec (container_of w (w_this wr)) (w_h wr) w)
      as [[e He]|[(cls & deps & handle & Hh)|Hs]]; rewrite Hr in *; simplify_eq; cbn;
      (repeat split; try done; by eexists [_]).
Qed.

Lemma invoke_unfold wid wr req rid next w :
  wrappers w !! wid = Some wr →
  invoke wid req rid next w =
    match obtain_instance wid wr rid w with
    | (Ok (Some i), w1) => dispatch wr i req rid next w1
    | (Ok None, w1) => (Ok tt, w1)
    | (Raise e, w1) => (Raise e, w1)
    | (Hang, w1) => (Hang, w1)
    end.
Proof.
  intros Hwr. unfold invoke, bind. rewrite Hwr.
  by destruct (obtain_instance wid wr rid w) as [[[i|]|e|] w1].
Qed.

(** C1. When the resolved instance is a handler and its [handle] comes to
    an end, or its error was contained by the [catch], the wrapper yields
    one tick, then checks [headersSent]: [next()] is called once if the
    headers were not sent, and not at all if they were.  Nothing is decided
    before the tick.  An error is contained when the [catch] can still
    write the response, which is the hypothesis [contained]. *)
Theorem handler_then_tick_then_next_unless_sent
    wid wr cls deps handle req rid next w w1 :
  wrappers w !! wid = Some wr →
  obtain_instance wid wr rid w = (Ok (Some (IHandler cls deps handle)), w1) →
  completes (b_completion (handle req)) = true →
  contained (handle req) (response_of w rid) = true →
  let r := response_at_check (handle req) (response_of w rid) in
  ∃ w2 pre,
    invoke wid req rid next w = (Ok tt, w2) ∧
    response_of w2 rid = r ∧
    count is_decision pre = 0 ∧
    trace w2 =
      trace w1 ++ EvHandle cls deps req rid :: pre ++
      EvYield :: EvCheck rid (headersSent r) ::
      (if headersSent r then [] else [EvNext next]) ∧
    count is_next (trace w2) =
      count is_next (trace w) + (if headersSent r then 0 else 1).
Proof.
  intros Hwr Hi Hc Hcont r.
  rewrite (invoke_unfold _ wr) by done. rewrite Hi.
  destruct (obtain_instance_some _ _ _ _ _ _ Hi) as (Hres & _ & _ & ev & Hev & Hnr).
  assert (response_of w1 rid = response_of w rid) as Hsame0
    by (unfold response_of; by rewrite Hres).
  rewrite <- Hsame0 in Hcont.
  unfold dispatch. unfold bind at 1.
  destruct (run_handler_spec cls deps (handle req) req rid w1 Hc Hcont)
    as (wc & pre & -> & Hrc & _ & _ & _ & _ & Hdec & Hsend & Htr).
  destruct (continue_chain_spec (handle req) rid next wc)
    as (w2 & -> & Hr2 & _ & _ & _ & _ & Ht2).
  assert (response_of w1 rid = response_of w rid) as Hsame
    by (unfold response_of; by rewrite Hres).
  assert (apply_ops (b_tick (handle req)) (response_of wc rid) = r) as Hr.
  { unfold r, response_at_check. by rewrite Hrc, Hsame. }
  rewrite Hr in *.
  exists w2, pre. repeat split; try done.
  - rewrite Ht2, Htr. by rewrite <- (assoc_L (++)).
  - rewrite Ht2, Htr, Hev, !count_app, !count_cons.
    rewrite (count_filter_nil is_next is_resolve ev) by (done || by intros []).
    rewrite (no_decision_no_next pre Hdec).
    destruct (headersSent r); cbn; lia.
Qed.


Local Arguments count : simpl never.

(** After the instance is there, the wrapper asks the container nothing. *)
Lemma dispatch_no_resolve wr i req rid next w :
  count is_resolve (trace (dispatch wr i req rid next w).2)
  = count is_resolve (trace w).
Proof.
  destruct (dispatch_frame wr i req rid next w) as (res & w2 & ev & -> & Ht & Hr & _).
  cbn. rewrite Ht, count_app. lia.
Qed.

(** C3. When the lazy resolution fails with [err] on a request, the
    wrapper has asked the container once and does not ask again for that
    request; it hands [send] the value derived from [err] (its message, or
    the value itself, or the fallback text), which a response not yet
    finalized takes as its body; it does not call [next()]; and the closure
    keeps no instance. *)
Theorem lazy_resolution_failure_reported wid wr req rid next w err :
  wrappers w !! wid = Some wr →
  w_instance wr = None →
  (resolve (container_of w (w_this wr)) (w_h wr) w).1 = Raise err →
  ∃ res w2,
    invoke wid req rid next w = (res, w2) ∧
    trace w2 =
      trace w ++ [EvResolve (container_of w (w_this wr)) (cls_name (w_h wr));
                  EvSend rid (error_value (w_h wr) err)] ∧
    error_value (w_h wr) err =
      match err with
      | ThrownError message => SendText message
      | ThrownOther text => SendText text
      | ThrownNumber n => SendNumber n
      | ThrownNullish =>
          SendText ("Error resolving handler: " +:+ cls_source (w_h wr))
      end ∧
    count is_resolve (trace w2) = S (count is_resolve (trace w)) ∧
    count is_next (trace w2) = count is_next (trace w) ∧
    wrappers w2 = wrappers w ∧
    (headersSent (response_of w rid) = false →
     res = Ok tt ∧
     headersSent (response_of w2 rid) = true ∧
     ∀ text, error_value (w_h wr) err = SendText text →
             response_of w2 rid =
               mkResponse (statusCode (response_of w rid)) (Some text) true).
Proof.
  intros Hwr Hnone Hfail.
  rewrite (invoke_unfold _ wr) by done.
  destruct (obtain_instance_lazy wid wr rid w Hnone)
    as [(e & w1 & He & -> & Ht & Hr & Hw & _)|(i & w1 & Hr & _)];
    [|rewrite Hr in Hfail; discriminate].
  rewrite He in Hfail. injection Hfail as ->.
  exists (if headersSent (response_of w rid)
          then Raise headers_sent_error else Ok tt), w1.
  split; [by destruct (headersSent (response_of w rid))|].
  split; [exact Ht|]. split; [by destruct err|].
  rewrite Ht, !count_app.
  split; [unfold count; cbn; lia|]. split; [unfold count; cbn; lia|].
  split; [done|]. intros Hopen. repeat split.
  - by rewrite Hopen.
  - rewrite Hr, apply_op_unsent by done. by destruct (error_value (w_h wr) err).
  - intros text Htext. rewrite Hr, Htext. cbn. by rewrite apply_op_unsent.
Qed.


(** ** Binding *)

Lemma bind_frame_refl w : bind_frame w w.
Proof. split; try done. exists []. by rewrite app_nil_r. Qed.

Lemma bind_frame_trans w1 w2 w3 :
  bind_frame w1 w2 → bind_frame w2 w3 → bind_frame w1 w3.
Proof.
  intros [] []. split; try congruence; try (etrans; eassumption); auto.
  destruct bf_trace0 as (ev1 & E1 & F1), bf_trace1 as (ev2 & E2 & F2).
  exists (ev1 ++ ev2). rewrite E2, E1, <- (assoc_L (++)).
  by rewrite List.filter_app, F1, F2.
Qed.

Lemma resolve_frame c h w : bind_frame w (resolve c h w).2.
Proof.
  destruct (resolve_spec c h w) as [[e ->]|[(cls & deps & handle & ->)| ->]];
    cbn; split; try done; try (by eexists [_]).
  - intros s so Hs. cbn. rewrite lookup_insert_ne; [done|].
    intros <-. pose proof (is_fresh (dom (servers w))) as Hf.
    apply Hf, elem_of_dom. by eexists.
  - intros s. apply (container_of_new_server s (resolving c h w)).
Qed.

Lemma resolve_not_hang c h w : (resolve c h w).1 ≠ Hang.
Proof.
  by destruct (resolve_spec c h w) as [[e ->]|[(cls & deps & handle & ->)| ->]].
Qed.

(** [wrapHandler], case by case. *)
Lemma wrapHandler_spec sid path h w :
  if is_eager path then
    match resolve (container_of w sid) h w with
    | (Ok i, w1) =>
        wrapHandler sid path h w =
          (Ok (fresh_key (wrappers w1)),
           set_wrappers (insert (fresh_key (wrappers w1)) (mkWrapper sid h (Some i))) w1)
    | (Raise e, w1) => wrapHandler sid path h w = (Raise e, w1)
    | (Hang, w1) => False
    end
  else
    wrapHandler sid path h w =
      (Ok (fresh_key (wrappers w)),
       set_wrappers (insert (fresh_key (wrappers w)) (mkWrapper sid h None)) w).
Proof.
  unfold wrapHandler. run_defs. destruct (is_eager path); [|done].
  pose proof (resolve_not_hang (container_of w sid) h w) as Hh.
  by destruct (resolve (container_of w sid) h w) as [[i|e|] w1].
Qed.

Lemma insert_fresh_wrapper_frame wr w :
  bind_frame w (set_wrappers (insert (fresh_key (wrappers w)) wr) w).
Proof.
  split; try done; cbn.
  - apply insert_subseteq, not_elem_of_dom, is_fresh.
  - exists []. by rewrite app_nil_r.
Qed.

Lemma wrapHandler_frame sid path h w :
  bind_frame w (wrapHandler sid path h w).2.
Proof.
  pose proof (wrapHandler_spec sid path h w) as Hs.
  pose proof (resolve_frame (container_of w sid) h w) as Hf.
  destruct (is_eager path).
  - destruct (resolve (container_of w sid) h w) as [[i|e|] w1];
      [| |done]; rewrite Hs; cbn in *; [|done].
    eapply bind_frame_trans; [exact Hf|]. apply insert_fresh_wrapper_frame.
  - rewrite Hs. apply insert_fresh_wrapper_frame.
Qed.

Lemma mapM_wrapHandler_frame sid path hs w :
  bind_frame w (mapM (wrapHandler sid path) hs w).2 ∧
  (mapM (wrapHandler sid path) hs w).1 ≠ Hang.
Proof.
  revert w. induction hs as [|h hs IH]; intros w; [split; [apply bind_frame_refl|done]|].
  cbn. unfold bind.
  pose proof (wrapHandler_frame sid path h w) as Hf.
  pose proof (wrapHandler_spec sid path h w) as Hs.
  destruct (wrapHandler sid path h w) as [[wid|e|] w1] eqn:Hw; cbn in *.
  - destruct (IH w1) as [Hf1 Hh1].
    destruct (mapM (wrapHandler sid path) hs w1) as [[ws|e|] w2]; cbn in *;
      (split; [by eapply bind_frame_trans|done]).
  - done.
  - exfalso. destruct (is_eager path); [|done].
    by destruct (resolve (container_of w sid) h w) as [[i|e|] w'].
Qed.

Lemma resolve_trace c h w :
  trace (resolve c h w).2 = trace w ++ [EvResolve c (cls_name h)].
Proof.
  by destruct (resolve_spec c h w) as [[e ->]|[(cls & deps & handle & ->)| ->]].
Qed.

(** Wrapping with the eager flag resolves every handler, in order, in the
    container the server has at that time, and keeps each instance in its
    closure. *)
Lemma mapM_wrapHandler_eager sid path hs w ws w' :
  is_eager path = true →
  mapM (wrapHandler sid path) hs w = (Ok ws, w') →
  trace w' =
    trace w ++ map (fun h => EvResolve (container_of w sid) (cls_name h)) hs ∧
  Forall2 (fun wid h =>
             ∃ i, wrappers w' !! wid = Some (mkWrapper sid h (Some i))) ws hs.
Proof.
  intros Heager. revert w ws w'.
  induction hs as [|h hs IH]; intros w ws w'.
  - intros [= <- <-]. split; [by rewrite app_nil_r|constructor].
  - cbn. unfold bind.
    pose proof (wrapHandler_spec sid path h w) as Hs. rewrite Heager in Hs.
    pose proof (resolve_trace (container_of w sid) h w) as Ht.
    pose proof (resolve_frame (container_of w sid) h w) as Hf.
    destruct (resolve (container_of w sid) h w) as [[i|e|] w1]; [| |done];
      rewrite Hs; [|done]. cbn in Ht, Hf.
    set (wid := fresh_key (wrappers w1)).
    set (w2 := set_wrappers _ w1).
    pose proof (mapM_wrapHandler_frame sid path hs w2) as [Hf2 _].
    destruct (mapM (wrapHandler sid path) hs w2) as [[ws'|e|] w3] eqn:Hrun;
      [|done|done].
    intros [= <- <-]. destruct (IH _ _ _ Hrun) as [Ht3 Hall]. cbn in Hf2.
    split.
    + rewrite Ht3. cbn. rewrite Ht, <- (assoc_L (++)). cbn.
      replace (container_of w2 sid) with (container_of w sid); [done|].
      symmetry. etrans; [|apply (bf_container_of _ _ Hf)]. done.
    + constructor; [|done]. exists i.
      eapply lookup_weaken; [|apply (bf_wrappers _ _ Hf2)].
      cbn. apply lookup_insert_eq.
Qed.


Lemma express_register_ok sid method path callbacks w w' :
  callbacks ≠ [] →
  express_register sid method path callbacks w = (Ok tt, w') →
  (∃ p, path = ArgPath p) ∧
  w' = set_servers
         (alter (fun s =>
                   mkServerObj
                     (express_server s ++ [mkRegistration method path callbacks])
                     (container s)) sid) w.
Proof.
  intros Hne.
  destruct method, callbacks as [|wid ws], path as [p|]; try done;
    intros [= <-]; split; try done; by exists p.
Qed.

Lemma express_register_path sid method p callbacks w :
  callbacks ≠ [] →
  express_register sid method (ArgPath p) callbacks w =
    (Ok tt,
     set_servers
       (alter (fun s =>
                 mkServerObj
                   (express_server s ++
                    [mkRegistration method (ArgPath p) callbacks])
                   (container s)) sid) w).
Proof. by destruct method, callbacks. Qed.

Lemma express_register_raises sid method path callbacks w e w' :
  express_register sid method path callbacks w = (Raise e, w') → w' = w.
Proof.
  destruct method, callbacks as [|wid ws], path as [p|]; try done;
    by intros [= _ <-].
Qed.


(** C9. With [eager: true], a resolution that fails at bind time is caught
    by nothing: the error leaves [attach] (so [get], [post] and [use]),
    the route table gets no registration, no response is written and no
    [send] is made. *)
Theorem eager_failure_escapes_registration
    sid method path before h after w ws w0 e :
  is_eager path = true →
  mapM (wrapHandler sid path) before w = (Ok ws, w0) →
  (resolve (container_of w0 sid) h w0).1 = Raise e →
  ∃ w1,
    attach sid method path (before ++ h :: after) w = (Raise e, w1) ∧
    Server.get sid path (before ++ h :: after) w = (Raise e, w1) ∧
    Server.post sid path (before ++ h :: after) w = (Raise e, w1) ∧
    Server.use sid path (before ++ h :: after) w = (Raise e, w1) ∧
    responses w1 = responses w ∧
    List.filter is_send (trace w1) = List.filter is_send (trace w) ∧
    ∀ s so, servers w !! s = Some so → servers w1 !! s = Some so.
Proof.
  intros Heager Hbefore Hfail.
  assert (∀ ws0, ∃ w1,
            (let* l := mapM (wrapHandler sid path) (before ++ h :: after) in
             ret (ws0 ++ l)) w = (Raise e, w1) ∧ bind_frame w w1)
    as Hraise; [|clear Hbefore].
  { revert w ws Hbefore. induction before as [|h0 before IH]; intros w ws Hb ws0.
    - injection Hb as <- <-. cbn. unfold bind.
      pose proof (wrapHandler_spec sid path h w) as Hs. rewrite Heager in Hs.
      pose proof (resolve_frame (container_of w sid) h w) as Hf.
      destruct (resolve (container_of w sid) h w) as [[i|e'|] w1]; cbn in *;
        [done| |done].
      injection Hfail as ->. rewrite Hs. by exists w1.
    - cbn in Hb |- *. unfold bind in Hb |- *.
      pose proof (wrapHandler_frame sid path h0 w) as Hf.
      destruct (wrapHandler sid path h0 w) as [[wid|e'|] w1]; [|done|done].
      destruct (mapM (wrapHandler sid path) before w1) as [[ws'|e'|] w2] eqn:Hb';
        [|done|done].
      injection Hb as <- <-.
      destruct (IH _ _ Hb' []) as (w3 & Hrun & Hf3). unfold bind in Hrun.
      destruct (mapM (wrapHandler sid path) (before ++ h :: after) w1)
        as [[l|e'|] w4]; [done| |done].
      injection Hrun as -> ->. exists w3. split; [done|].
      by eapply bind_frame_trans. }
  destruct (Hraise []) as (w1 & Hrun & Hf). unfold bind in Hrun.
  assert (∀ m, attach sid m path (before ++ h :: after) w = (Raise e, w1)) as Ha.
  { intros m. unfold attach, bind.
    destruct (mapM (wrapHandler sid path) (before ++ h :: after) w)
      as [[l|e'|] w4]; [done| |done]. by injection Hrun as -> ->. }
  exists w1. repeat split; try apply Ha.
  - apply (bf_responses _ _ Hf).
  - destruct (bf_trace _ _ Hf) as (ev & -> & Hev).
    rewrite List.filter_app.
    enough (List.filter is_send ev = []) as -> by by rewrite app_nil_r.
    clear -Hev. induction ev as [|[] ev IH]; cbn in *; try done; auto.
  - apply (bf_servers _ _ Hf).
Qed.

Lemma obtain_instance_container_of wid wr rid i w w1 :
  obtain_instance wid wr rid w = (Ok (Some i), w1) →
  ∀ s, container_of w1 s = container_of w s.
Proof.
  destruct (w_instance wr) as [i'|] eqn:Hi.
  - rewrite (obtain_instance_cached _ _ _ i') by done. by intros [= <- <-].
  - destruct (obtain_instance_lazy wid wr rid w Hi)
      as [(e & w' & _ & -> & _)|(i' & w' & Hr & ->)];
      [by destruct (headersSent (response_of w rid))|].
    intros [= <- <-] s.
    pose proof (resolve_frame (container_of w (w_this wr)) (w_h wr) w) as Hf.
    rewrite Hr in Hf. apply (bf_container_of _ _ Hf s).
Qed.

(** C5. When the resolved instance is a nested server, the wrapper makes a
    child of the container its own server has at that moment (a container
    that did not exist before), stores it in the nested server's
    [container] field, hands [req], [res] and [next] to the nested
    server's route table, and does nothing more: no tick, no check, no
    call of [next()], no write to the response. *)
Theorem nested_server_gets_fresh_child_scope
    wid wr nested req rid next w w1 :
  wrappers w !! wid = Some wr →
  obtain_instance wid wr rid w = (Ok (Some (IServer nested)), w1) →
  let c := container_of w (w_this wr) in
  let child := fresh_key (containers w) in
  ∃ w2,
    invoke wid req rid next w = (Ok tt, w2) ∧
    containers w !! child = None ∧
    containers w2 = <[child := mkContainer ∅ (Some c)]> (containers w) ∧
    servers w2 =
      alter (fun s => mkServerObj (express_server s) child) nested (servers w1) ∧
    trace w2 =
      trace w1 ++ [EvCreateChild c child; EvSetContainer nested child;
                   EvForward nested req rid next] ∧
    responses w2 = responses w ∧
    console w2 = console w ∧
    count is_decision (trace w2) = count is_decision (trace w).
Proof.
  intros Hwr Hi c child.
  rewrite (invoke_unfold _ wr) by done. rewrite Hi.
  destruct (obtain_instance_some _ _ _ _ _ _ Hi) as (Hres & Hcon & Hct & ev & Hev & Hnr).
  pose proof (obtain_instance_container_of _ _ _ _ _ _ Hi (w_this wr)) as Hc.
  unfold dispatch. run_defs. cbn. rewrite Hc, Hct. fold c child.
  eexists. split; [reflexivity|]. cbn.
  rewrite <- !(assoc_L (++)). cbn. repeat split; try done.
  - apply not_elem_of_dom, is_fresh.
  - by rewrite Hct.
  - rewrite Hev, !count_app.
    rewrite (count_filter_nil is_decision is_resolve ev) by (done || by intros []).
    unfold count. cbn. lia.
Qed.

(** *** The properties above, on the scenarios *)

Lemma handler_then_tick_then_next_unless_sent_witness :
  count is_next (trace (invoke 0 "/" 7 100 (Scenario.served Scenario.Inspect)).2) = 1.
Proof.
  destruct (handler_then_tick_then_next_unless_sent
              0 (Scenario.lazy_wrapper Scenario.Inspect) "Inspect" []
              (fun _ => mkBehaviour [] (ReturnsPromise [] Fulfils) [])
              "/" 7 100 (Scenario.served Scenario.Inspect)
              (obtain_instance 0 (Scenario.lazy_wrapper Scenario.Inspect) 7
                 (Scenario.served Scenario.Inspect)).2)
    as (w2 & pre & Hinv & _ & _ & _ & Hn).
  - vm_compute. reflexivity.
  - vm_compute. reflexivity.
  - reflexivity.
  - reflexivity.
  - rewrite Hinv. cbn [snd]. rewrite Hn. vm_compute. reflexivity.
Defined.


Lemma lazy_resolution_failure_reported_witness :
  ∃ m,
    unregistered Scenario.DATABASE_TOKEN = ThrownError m ∧
    trace Scenario.first_request = [EvResolve 0 "NeedsDb"; EvSend 7 (SendText m)] ∧
    response_of Scenario.first_request 7 = mkResponse 200 (Some m) true.
Proof.
  destruct (lazy_resolution_failure_reported
              0 (Scenario.lazy_wrapper Scenario.NeedsDb) "/" 7 100
              (Scenario.served Scenario.NeedsDb)
              (unregistered Scenario.DATABASE_TOKEN))
    as (res & w2 & Hinv & Ht & _ & _ & _ & _ & Hopen).
  - vm_compute. reflexivity.
  - reflexivity.
  - vm_compute. reflexivity.
  - destruct Hopen as (_ & _ & Hbody); [vm_compute; reflexivity|].
    eexists. split; [reflexivity|].
    unfold Scenario.first_request. rewrite Hinv. cbn [snd]. rewrite Ht.
    split; [vm_compute; reflexivity|].
    rewrite (Hbody _ eq_refl). vm_compute. reflexivity.
Defined.


Lemma nested_server_gets_fresh_child_scope_witness :
  trace (invoke 0 "/" 7 100 (Scenario.served Scenario.ApiServer)).2 =
    [EvResolve 0 "ApiServer"; EvCreateChild 0 1; EvSetContainer 1 1;
     EvForward 1 "/" 7 100].
Proof.
  destruct (nested_server_gets_fresh_child_scope
              0 (Scenario.lazy_wrapper Scenario.ApiServer) 1 "/" 7 100
              (Scenario.served Scenario.ApiServer)
              (obtain_instance 0 (Scenario.lazy_wrapper Scenario.ApiServer) 7
                 (Scenario.served Scenario.ApiServer)).2)
    as (w2 & Hinv & _ & _ & _ & Ht & _).
  - vm_compute. reflexivity.
  - vm_compute. reflexivity.
  - rewrite Hinv. cbn [snd]. rewrite Ht. vm_compute. reflexivity.
Defined.


Lemma eager_failure_escapes_registration_witness :
  (Server.get 0 (Config (PString "/") (Some true))
     [Scenario.HelloWorld; Scenario.NeedsDb]
     (Scenario.served Scenario.Inspect)).1
  = Raise (unregistered Scenario.DATABASE_TOKEN).
Proof.
  destruct (eager_failure_escapes_registration
              0 GET (Config (PString "/") (Some true))
              [Scenario.HelloWorld] Scenario.NeedsDb []
              (Scenario.served Scenario.Inspect)
              [1]
              (mapM (wrapHandler 0 (Config (PString "/") (Some true)))
                 [Scenario.HelloWorld] (Scenario.served Scenario.Inspect)).2
              (unregistered Scenario.DATABASE_TOKEN))
    as (w1 & _ & Hget & _).
  - reflexivity.
  - vm_compute. reflexivity.
  - vm_compute. reflexivity.
  - cbn [app] in Hget. by rewrite Hget.
Defined.



(** The provider is replaced between binding and the first request: the
    instance resolved at bind time keeps the old value, the instance
    resolved by the first request gets the new one. *)
Example provider_replaced_after_binding :
  trace Scenario.rebound =
    [EvResolve 0 "NeedsDb";
     EvHandle "NeedsDb" [VText "v0"] "/a" 7; EvYield; EvCheck 7 true;
     EvResolve 0 "NeedsDb";
     EvHandle "NeedsDb" [VText "v1"] "/b" 8; EvYield; EvCheck 8 true].
Proof. vm_compute. reflexivity. Qed.

End Wrapper.

(** ** [Handler.from] *)

Section Adapter.

Lemma settle_idem s p : settle s (settle s p) = settle s p.
Proof. by destruct p, s. Qed.

(** One task, in closed form. *)
Lemma run_task_spec steps p :
  run_task steps p =
    (writes_of steps,
     if signals steps then settle Fulfilled p else p,
     thrown_by steps).
Proof.
  revert p. induction steps as [|[op|err|e] k IH]; intros p; cbn; try done.
  - by rewrite IH.
  - rewrite IH, settle_idem. by destruct (signals k).
Qed.

(** The promise when the executor has run. *)
Lemma run_executor_spec cb :
  run_executor cb =
    (writes_of (cb_sync cb),
     if signals (cb_sync cb) then Fulfilled
     else match thrown_by (cb_sync cb) with
          | Some e => Rejected e
          | None => Pending
          end).
Proof.
  unfold run_executor. rewrite run_task_spec.
  by destruct (signals (cb_sync cb)), (thrown_by (cb_sync cb)).
Qed.

Lemma run_later_settled tasks p :
  p ≠ Pending → run_later tasks p = ([], p, tasks).
Proof. by destruct p, tasks. Qed.

(** A pending promise is fulfilled by the first later task that calls
    [next]; no later task rejects it. *)
Lemma run_later_pending tasks :
  (run_later tasks Pending).1.2 =
    if existsb signals tasks then Fulfilled else Pending.
Proof.
  induction tasks as [|task rest IH]; [done|].
  cbn. rewrite run_task_spec. cbn.
  destruct (signals task); cbn.
  - by rewrite run_later_settled.
  - destruct (run_later rest Pending) as [[ws p] rest']. cbn in *. by rewrite IH.
Qed.

Lemma existsb_signals tasks :
  existsb signals tasks = true ↔ ∃ task, task ∈ tasks ∧ signals task = true.
Proof.
  rewrite existsb_exists. split; intros (task & Hin & Hs); exists task;
    (split; [by apply list_elem_of_In|done]).
Qed.

(** The promise that [handle] returns, in closed form. *)
Lemma from_handle_completion cb :
  ∃ during,
    b_completion (from_handle cb) =
      ReturnsPromise during
        (if signals (cb_sync cb) then Fulfils
         else match thrown_by (cb_sync cb) with
              | Some e => Rejects e
              | None => if existsb signals (cb_later cb) then Fulfils
                        else NeverSettles
              end).
Proof.
  unfold from_handle. rewrite run_executor_spec.
  destruct (signals (cb_sync cb)).
  - rewrite run_later_settled by done. by eexists.
  - destruct (thrown_by (cb_sync cb)) as [e|].
    + rewrite run_later_settled by done. by eexists.
    + pose proof (run_later_pending (cb_later cb)) as Hp.
      destruct (run_later (cb_later cb) Pending) as [[ws p] rest]. cbn in *.
      subst p. eexists. cbn. by destruct (existsb signals (cb_later cb)).
Qed.

(** C6, as amended. [Handler.from(f)] is a handler class without
    constructor parameters whose [handle(req, res)] calls [f] with that
    request, that response and the promise's [resolve] as [next], and
    returns the promise; [handle] itself never throws.  The promise is
    fulfilled when [f] calls [next], with or without an argument, before
    the call of [f] throws, or, if that call does not throw, in a later
    task.  It is rejected, with the thrown value unchanged, when the call
    of [f] throws before calling [next]; that is the only way for the
    caller of [handle] to receive an error of [f]. *)
Theorem adapter_promise_follows_next_and_first_throw
    (f : Req → Callback) (req : Req) :
  cls_kind (Handler.from f) = HandlerClass (fun _ r => from_handle (f r)) ∧
  cls_deps (Handler.from f) = [] ∧
  cls_ctor_throws (Handler.from f) = None ∧
  b_sync (from_handle (f req)) = writes_of (cb_sync (f req)) ∧
  (∃ during s, b_completion (from_handle (f req)) = ReturnsPromise during s) ∧
  (fulfils (from_handle (f req)) ↔
     signals (cb_sync (f req)) = true ∨
     (thrown_by (cb_sync (f req)) = None ∧
      ∃ task, task ∈ cb_later (f req) ∧ signals task = true)) ∧
  (fulfils (from_handle (f req)) → cb_signals (f req)) ∧
  (∀ e, caller_receives (from_handle (f req)) e ↔
     signals (cb_sync (f req)) = false ∧ thrown_by (cb_sync (f req)) = Some e).
Proof.
  set (cb := f req).
  destruct (from_handle_completion cb) as [during Hc].
  split; [done|]. split; [done|]. split; [done|].
  split.
  { unfold from_handle. rewrite run_executor_spec.
    by destruct (run_later _ _) as [[? ?] ?]. }
  split; [by eexists _, _|].
  split; [|split].
  - unfold fulfils. rewrite Hc. split.
    + intros [d Hd].
      destruct (signals (cb_sync cb)); [by left|right].
      destruct (thrown_by (cb_sync cb)); [done|]. split; [done|].
      apply existsb_signals.
      by destruct (existsb signals (cb_later cb)).
    + intros [Hs|[Ht Hl]].
      * rewrite Hs. by eexists.
      * rewrite Ht. apply existsb_signals in Hl. rewrite Hl.
        destruct (signals (cb_sync cb)); by eexists.
  - unfold fulfils, cb_signals. rewrite Hc. intros [d Hd].
    destruct (signals (cb_sync cb)); [by left|right].
    destruct (thrown_by (cb_sync cb)); [done|].
    apply existsb_signals.
    by destruct (existsb signals (cb_later cb)).
  - intros e. unfold caller_receives. rewrite Hc. split.
    + intros Hrecv.
      destruct (signals (cb_sync cb)); [done|].
      destruct (thrown_by (cb_sync cb)); cbn in *; [split; congruence|].
      by destruct (existsb signals (cb_later cb)).
    + intros [Hs Ht]. by rewrite Hs, Ht.
Qed.

(** C6, counterexample. A raw callback whose error is raised in a later
    task: the caller of [handle] never receives it, the promise never
    settles and the wrapper stays suspended, nothing reaching its [catch].
    A raw callback that calls [next] and then throws: the promise is
    fulfilled and the error is lost.  A raw callback that reports its
    error with [next(err)]: the promise is fulfilled, nothing is logged,
    and the wrapper goes on to [next()] without the error. *)
Lemma adapter_drops_errors_it_cannot_reject :
  (cb_raises Scenario.rejecting_later Scenario.boom ∧
   ¬ caller_receives (from_handle Scenario.rejecting_later) Scenario.boom ∧
   b_completion (from_handle Scenario.rejecting_later)
     = ReturnsPromise [] NeverSettles ∧
   (Server.invoke 0 "/" 7 100
      (Scenario.served (Handler.from (fun _ => Scenario.rejecting_later)))).1
     = Hang) ∧
  (cb_raises Scenario.next_then_throw Scenario.boom ∧
   ¬ caller_receives (from_handle Scenario.next_then_throw) Scenario.boom ∧
   fulfils (from_handle Scenario.next_then_throw)) ∧
  (CbNext (Some Scenario.boom) ∈ cb_sync Scenario.next_with_error ∧
   ¬ caller_receives (from_handle Scenario.next_with_error) Scenario.boom ∧
   fulfils (from_handle Scenario.next_with_error) ∧
   console (Server.invoke 0 "/" 7 100
      (Scenario.served (Handler.from (fun _ => Scenario.next_with_error)))).2
     = [] ∧
   last (trace (Server.invoke 0 "/" 7 100
      (Scenario.served (Handler.from (fun _ => Scenario.next_with_error)))).2)
     = Some (EvNext 100)).
Proof.
  split; [|split]; split.
  - right. exists [CbThrow Scenario.boom]. split; [|done]. apply list_elem_of_here.
  - split; [intros H; vm_compute in H; discriminate|]. split; vm_compute; reflexivity.
  - by left.
  - split; [intros H; vm_compute in H; discriminate|]. by exists [].
  - apply list_elem_of_here.
  - split; [intros H; vm_compute in H; discriminate|].
    split; [by exists []|]. split; vm_compute; reflexivity.
Qed.

End Adapter.

(** ** [listen] *)

Section Listen.
Import Server.

Lemma find_provider_here (cs : gmap nat Container) c ct tok p :
  cs !! c = Some ct →
  registry ct !! tok = Some p →
  find_provider (size cs) cs c tok = Some p.
Proof.
  intros Hc Hp. destruct (size cs) eqn:Hsz.
  - apply map_size_empty_iff in Hsz. subst. by rewrite lookup_empty in Hc.
  - cbn. by rewrite Hc, Hp.
Qed.

Lemma resolve_token_registered c tok v ct w :
  containers w !! c = Some ct →
  registry ct !! tok = Some (UseValue v) →
  resolve_token c tok w = (Ok v, w).
Proof.
  intros Hc Hp. unfold resolve_token.
  by rewrite (find_provider_here _ _ _ _ _ Hc Hp).
Qed.

(** C7, as amended. [listen(port)] creates the transport and publishes
    its handle under [HTTP_SERVER_TOKEN] inside the call, while the
    transport is still binding; the promise it returns is then pending.
    When the transport reports that it accepts connections the promise is
    fulfilled; when it reports an error the promise is rejected with that
    error, and the handle stays published. *)
Theorem listen_publishes_handle_at_once sid port w ct :
  containers w !! container_of w sid = Some ct →
  let c := container_of w sid in
  let pid := fresh_key (promises w) in
  let http_server := fresh_key (transports w) in
  ∃ w1,
    listen sid port w = (Ok pid, w1) ∧
    transports w !! http_server = None ∧
    transports w1 !! http_server = Some (mkTransport port Binding [pid] [pid]) ∧
    promises w1 !! pid = Some Pending ∧
    resolve_token c HTTP_SERVER_TOKEN w1 = (Ok (VHttpServer http_server), w1) ∧
    (let wb := bind_outcome http_server Bound w1 in
     t_state <$> transports wb !! http_server = Some Accepting ∧
     promises wb !! pid = Some Fulfilled) ∧
    (∀ e,
       let we := bind_outcome http_server (BindError e) w1 in
       t_state <$> transports we !! http_server = Some (BindFailed e) ∧
       promises we !! pid = Some (Rejected e) ∧
       resolve_token c HTTP_SERVER_TOKEN we = (Ok (VHttpServer http_server), we)).
Proof.
  intros Hct c pid http_server. change (containers w !! c = Some ct) in Hct.
  unfold listen, new_promise, express_listen, on_error, settle_promise,
    getContainer, register, try_catch, modify, gets, bind, ret.
  cbn. fold c pid http_server.
  eexists. split; [reflexivity|].
  set (ct' := mkContainer (<[HTTP_SERVER_TOKEN := UseValue (VHttpServer http_server)]>
                             (registry ct)) (parent ct)).
  assert (alter (fun ct0 => mkContainer
                   (<[HTTP_SERVER_TOKEN := UseValue (VHttpServer http_server)]>
                      (registry ct0)) (parent ct0)) c (containers w) !! c
          = Some ct') as Hc'.
  { by rewrite lookup_alter_eq, Hct. }
  assert (registry ct' !! HTTP_SERVER_TOKEN = Some (UseValue (VHttpServer http_server)))
    as Hreg by apply lookup_insert_eq.
  split; [apply not_elem_of_dom, is_fresh|].
  split; [cbn; by rewrite lookup_alter_eq, lookup_insert_eq|].
  split; [cbn; apply lookup_insert_eq|].
  split; [by eapply resolve_token_registered|].
  split.
  - unfold bind_outcome. cbn. rewrite lookup_alter_eq, lookup_insert_eq. cbn.
    rewrite !lookup_insert_eq. cbn. split; [done|].
    by rewrite lookup_alter_eq, lookup_insert_eq.
  - intros e. unfold bind_outcome. cbn. rewrite lookup_alter_eq, lookup_insert_eq. cbn.
    rewrite !lookup_insert_eq. cbn. split; [done|].
    split; [by rewrite lookup_alter_eq, lookup_insert_eq|].
    by eapply resolve_token_registered.
Qed.

Lemma listen_publishes_handle_at_once_witness :
  (resolve_token RootContainer HTTP_SERVER_TOKEN Scenario.listening).1
    = Ok (VHttpServer 0) ∧
  transports Scenario.listening !! 0 = Some (mkTransport 8080 Binding [0] [0]).
Proof.
  destruct (listen_publishes_handle_at_once
              0 8080%N (Scenario.served Scenario.HelloWorld) (mkContainer ∅ None))
    as (w1 & Hl & _ & Ht & _ & Hr & _).
  - vm_compute. reflexivity.
  - assert (container_of (Scenario.served Scenario.HelloWorld) 0 = RootContainer)
      as Hc by (vm_compute; reflexivity).
    rewrite Hc in Hr.
    unfold Scenario.listening. rewrite Hl. cbn [snd].
    split; [by rewrite Hr|].
    etrans; [|etrans; [exact Ht|]]; vm_compute; reflexivity.
Defined.

(** C7, counterexample. After [listen(8080)] has returned and before the
    transport has reported anything, the handle is already resolvable
    under [HTTP_SERVER_TOKEN] although the transport is not bound; if the
    bind then fails, the handle is still resolvable. *)
Lemma handle_published_before_bound :
  (resolve_token RootContainer HTTP_SERVER_TOKEN Scenario.listening).1
    = Ok (VHttpServer 0) ∧
  t_state <$> transports Scenario.listening !! 0 = Some Binding ∧
  t_state <$> transports (bind_outcome 0 (BindError Scenario.boom) Scenario.listening) !! 0
    = Some (BindFailed Scenario.boom) ∧
  (resolve_token RootContainer HTTP_SERVER_TOKEN
     (bind_outcome 0 (BindError Scenario.boom) Scenario.listening)).1
    = Ok (VHttpServer 0).
Proof. vm_compute. repeat split. Qed.

End Listen.

(** ** More about the dispatch wrapper *)

Section Coverage.
Import Server.

Local Arguments resolve : simpl never.
Local Arguments apply_op : simpl never.
Local Arguments count : simpl never.

Ltac step_defs :=
  unfold continue_chain, run_handler, call_handle, yield_tick, res_headersSent,
    res_status, res_send, console_error, handler_writes, forward, setContainer,
    getContainer, createChildContainer, set_instance,
    try_catch, throw, emit, modify, gets, bind, ret.

(** After the instance is there, the wrapper leaves every closure alone. *)
Lemma dispatch_wrappers wr i req rid next w :
  wrappers (dispatch wr i req rid next w).2 = wrappers w.
Proof.
  by destruct (dispatch_frame wr i req rid next w) as (res & w2 & ev & -> & _ & _ & _ & ?).
Qed.

Lemma dispatch_next_le wr i req rid next w :
  (count is_next (trace (dispatch wr i req rid next w).2)
   ≤ S (count is_next (trace w)))%nat.
Proof.
  destruct (dispatch_frame wr i req rid next w) as (res & w2 & ev & -> & Ht & _ & Hn & _).
  cbn [snd]. rewrite Ht, count_app. lia.
Qed.

(** Getting the instance calls no [next()]. *)
Lemma obtain_instance_no_next wid wr rid w :
  count is_next (trace (obtain_instance wid wr rid w).2)
  = count is_next (trace w).
Proof.
  destruct (w_instance wr) as [i|] eqn:Hi.
  - by rewrite (obtain_instance_cached _ _ _ i).
  - destruct (obtain_instance_lazy wid wr rid w Hi)
      as [(e & w1 & _ & -> & Ht & _)|(i & w1 & Hr & ->)]; cbn.
    + rewrite Ht, !count_app. unfold count. cbn. lia.
    + pose proof (resolve_trace (container_of w (w_this wr)) (w_h wr) w) as Ht.
      rewrite Hr in Ht. cbn in Ht. rewrite Ht, count_app. unfold count. cbn. lia.
Qed.

(** X1. Whatever the instance is and whatever the handler does (return,
    throw, rejection, no end at all, resolution failure), one call of a
    closure calls [next()] at most once. *)
Theorem invoke_calls_next_at_most_once wid req rid next w :
  (count is_next (trace (invoke wid req rid next w).2)
   ≤ S (count is_next (trace w)))%nat.
Proof.
  unfold invoke. destruct (wrappers w !! wid) as [wr|] eqn:Hwr; [|cbn; lia].
  unfold bind.
  pose proof (obtain_instance_no_next wid wr rid w) as Hn.
  destruct (obtain_instance wid wr rid w) as [[[i|]|e|] w1]; cbn in *;
    try lia.
  pose proof (dispatch_next_le wr i req rid next w1). lia.
Qed.

Lemma invoke_cached_no_resolve wid wr i req rid next w :
  wrappers w !! wid = Some wr →
  w_instance wr = Some i →
  count is_resolve (trace (invoke wid req rid next w).2)
  = count is_resolve (trace w).
Proof.
  intros Hwr Hi. rewrite (invoke_unfold _ wr) by done.
  rewrite (obtain_instance_cached _ _ _ i) by done.
  apply dispatch_no_resolve.
Qed.

(** X2. A lazy resolution that succeeds is kept: after the first call the
    closure holds the instance, whether or not that call came to an end,
    and every later call of the closure gets that same instance without
    asking the container. *)
Theorem lazy_instance_is_resolved_once wid wr i req rid next w :
  wrappers w !! wid = Some wr →
  w_instance wr = None →
  (resolve (container_of w (w_this wr)) (w_h wr) w).1 = Ok i →
  let w2 := (invoke wid req rid next w).2 in
  let wr2 := mkWrapper (w_this wr) (w_h wr) (Some i) in
  wrappers w2 !! wid = Some wr2 ∧
  count is_resolve (trace w2) = S (count is_resolve (trace w)) ∧
  ∀ req' rid' next',
    obtain_instance wid wr2 rid' w2 = (Ok (Some i), w2) ∧
    count is_resolve (trace (invoke wid req' rid' next' w2).2)
    = count is_resolve (trace w2).
Proof.
  intros Hwr Hnone Hok w2 wr2. subst w2.
  rewrite (invoke_unfold _ wr) by done.
  destruct (obtain_instance_lazy wid wr rid w Hnone)
    as [(e & w0 & He & _)|(i' & w1 & Hr & ->)];
    [rewrite He in Hok; discriminate|].
  rewrite Hr in Hok. injection Hok as ->.
  pose proof (resolve_trace (container_of w (w_this wr)) (w_h wr) w) as Ht.
  pose proof (resolve_frame (container_of w (w_this wr)) (w_h wr) w) as Hf.
  rewrite Hr in Ht, Hf. cbn in Ht, Hf.
  set (w1' := set_wrappers _ w1).
  assert (wrappers (dispatch wr i req rid next w1').2 !! wid = Some wr2) as Hslot.
  { rewrite dispatch_wrappers. unfold w1'. cbn. rewrite lookup_alter_eq.
    by rewrite (lookup_weaken _ _ _ _ Hwr (bf_wrappers _ _ Hf)). }
  split; [exact Hslot|]. split.
  - rewrite dispatch_no_resolve. unfold w1'. cbn.
    rewrite Ht, count_app. unfold count. cbn. lia.
  - intros req' rid' next'. split; [done|].
    by apply (invoke_cached_no_resolve _ wr2 i).
Qed.

(** X3. A handler whose promise never settles leaves the closure
    suspended for good: there is no tick, no check and no [next()], the
    wrapper writes nothing and logs nothing; the response holds what the
    handler wrote. *)
Theorem unsettled_handler_stalls_the_chain
    wid wr cls deps handle req rid next w w1 :
  wrappers w !! wid = Some wr →
  obtain_instance wid wr rid w = (Ok (Some (IHandler cls deps handle)), w1) →
  completes (b_completion (handle req)) = false →
  ∃ w2,
    invoke wid req rid next w = (Hang, w2) ∧
    trace w2 = trace w1 ++ [EvHandle cls deps req rid; EvAwait] ∧
    response_of w2 rid = apply_ops (handle_writes (handle req)) (response_of w rid) ∧
    console w2 = console w.
Proof.
  intros Hwr Hi Hc.
  rewrite (invoke_unfold _ wr) by done. rewrite Hi.
  destruct (obtain_instance_some _ _ _ _ _ _ Hi) as (Hres & Hcon & _).
  unfold dispatch, handle_writes. step_defs.
  destruct (handle req) as [sy c tk]; cbn in *.
  destruct c as [|e|d [|e|]]; cbn in *; try discriminate.
  eexists. split; [reflexivity|]. cbn.
  rewrite <- (assoc_L (++)). repeat split; try done.
  unfold response_of, update_response. cbn.
  rewrite !lookup_insert_eq. cbn. by rewrite Hres, apply_ops_app.
Qed.

(** X4. A call of one closure leaves every other closure as it was: the
    instance it resolves goes into its own slot only, also when two
    closures were made for the same class. *)
Theorem invoke_touches_its_own_closure_only wid other req rid next w :
  other ≠ wid →
  wrappers (invoke wid req rid next w).2 !! other = wrappers w !! other.
Proof.
  intros Hne. unfold invoke.
  destruct (wrappers w !! wid) as [wr|] eqn:Hwr; [|done].
  unfold bind.
  destruct (w_instance wr) as [i|] eqn:Hi.
  - rewrite (obtain_instance_cached _ _ _ i) by done.
    by rewrite dispatch_wrappers.
  - destruct (obtain_instance_lazy wid wr rid w Hi)
      as [(e & w1 & _ & -> & _ & _ & Hw & _)|(i & w1 & Hr & ->)];
      [destruct (headersSent (response_of w rid)); cbn; by rewrite Hw|].
    rewrite dispatch_wrappers. cbn. rewrite lookup_alter_ne by done.
    destruct (resolve_spec (container_of w (w_this wr)) (w_h wr) w)
      as [[e He]|[(cls & deps & handle & Hh)| Hs]];
      rewrite Hr in *; by simplify_eq.
Qed.

Lemma resolve_wrappers c h w : wrappers (resolve c h w).2 = wrappers w.
Proof.
  by destruct (resolve_spec c h w) as [[e ->]|[(cls & deps & handle & ->)| ->]].
Qed.

(** What one successful [wrapHandler] adds. *)
Lemma wrapHandler_adds_one sid path h w wid w1 :
  wrapHandler sid path h w = (Ok wid, w1) →
  wrappers w !! wid = None ∧
  ∃ instance, wrappers w1 = <[wid := mkWrapper sid h instance]> (wrappers w).
Proof.
  pose proof (wrapHandler_spec sid path h w) as Hs.
  destruct (is_eager path).
  - pose proof (resolve_wrappers (container_of w sid) h w) as Hw.
    destruct (resolve (container_of w sid) h w) as [[i|e|] w0]; [| |done];
      rewrite Hs; [|done]. cbn in Hw.
    intros [= <- <-]. cbn. rewrite Hw.
    split; [apply not_elem_of_dom, is_fresh|by eexists].
  - rewrite Hs. intros [= <- <-]. cbn.
    split; [apply not_elem_of_dom, is_fresh|by eexists].
Qed.

Lemma mapM_wrapHandler_closures sid path hs w ws w' :
  mapM (wrapHandler sid path) hs w = (Ok ws, w') →
  NoDup ws ∧
  Forall (fun wid => wrappers w !! wid = None) ws ∧
  Forall2 (fun wid h =>
             ∃ instance, wrappers w' !! wid = Some (mkWrapper sid h instance))
          ws hs ∧
  ∀ wid wr, wrappers w !! wid = Some wr → wrappers w' !! wid = Some wr.
Proof.
  revert w ws w'. induction hs as [|h hs IH]; intros w ws w'.
  - intros [= <- <-]. repeat split; auto using NoDup_nil_2.
  - cbn. unfold bind.
    destruct (wrapHandler sid path h w) as [[wid|e|] w1] eqn:Hw; [|done|done].
    destruct (mapM (wrapHandler sid path) hs w1) as [[ws'|e|] w2] eqn:Hrun;
      [|done|done].
    intros [= <- <-].
    destruct (wrapHandler_adds_one _ _ _ _ _ _ Hw) as [Hfresh [inst Hw1]].
    destruct (IH _ _ _ Hrun) as (Hnd & Hnew & Hall & Hkeep).
    assert (wrappers w1 !! wid = Some (mkWrapper sid h inst)) as Hwid
      by (rewrite Hw1; apply lookup_insert_eq).
    repeat split.
    + apply NoDup_cons. split; [|done].
      intros Hin. rewrite Forall_forall in Hnew.
      specialize (Hnew _ Hin). congruence.
    + constructor; [done|].
      eapply Forall_impl; [exact Hnew|]. intros x Hx. cbn in Hx.
      rewrite Hw1 in Hx. apply lookup_insert_None in Hx. tauto.
    + constructor; [|done]. exists inst. by apply Hkeep.
    + intros x wr Hx. apply Hkeep. rewrite Hw1.
      rewrite lookup_insert_ne; [done|]. intros <-. congruence.
Qed.

(** X5. A registration of at least one handler that succeeds had a path
    that is not [null], and makes one closure per handler, in the order of
    the handlers: the closures are new, pairwise different (also for a
    class given twice), each bound to this server and to its class; the
    closures that existed before are unchanged. *)
Theorem attach_makes_one_closure_per_handler
    sid method path handlers w so that w' :
  handlers ≠ [] →
  servers w !! sid = Some so →
  attach sid method path handlers w = (Ok that, w') →
  ∃ callbacks,
    (∃ p, path_arg path = ArgPath p) ∧
    servers w' !! sid =
      Some (mkServerObj
              (express_server so ++
               [mkRegistration method (path_arg path) callbacks])
              (container so)) ∧
    NoDup callbacks ∧
    Forall (fun wid => wrappers w !! wid = None) callbacks ∧
    Forall2 (fun wid h =>
               ∃ instance,
                 wrappers w' !! wid = Some (mkWrapper sid h instance))
            callbacks handlers ∧
    ∀ wid wr, wrappers w !! wid = Some wr → wrappers w' !! wid = Some wr.
Proof.
  intros Hne Hso. unfold attach. unfold bind at 1.
  pose proof (mapM_wrapHandler_frame sid path handlers w) as [Hf _].
  destruct (mapM (wrapHandler sid path) handlers w) as [[ws|e|] w1] eqn:Hrun;
    [|done|done].
  unfold bind, ret.
  destruct (express_register sid method (path_arg path) ws w1)
    as [[[]|e|] w2] eqn:Hreg; [|done|done].
  intros [= <- <-]. cbn in Hf.
  destruct (mapM_wrapHandler_closures _ _ _ _ _ _ Hrun) as (Hnd & Hnew & Hall & Hkeep).
  assert (ws ≠ []) as Hws.
  { intros ->. apply Forall2_length in Hall. by destruct handlers. }
  destruct (express_register_ok _ _ _ _ _ _ Hws Hreg) as [Hp ->].
  exists ws. split; [exact Hp|]. split; [|done].
  cbn. by rewrite lookup_alter_eq, (bf_servers _ _ Hf _ _ Hso).
Qed.

(** X6. Without the eager flag, a registration with a path and at least
    one handler goes through; it returns the server itself, so calls
    chain, and the route table keeps the registrations in the order of the
    calls, after those it had. *)
Theorem lazy_registrations_chain_in_order
    sid m1 m2 path1 path2 p1 p2 hs1 hs2 w so :
  servers w !! sid = Some so →
  is_eager path1 = false →
  is_eager path2 = false →
  path_arg path1 = ArgPath p1 →
  path_arg path2 = ArgPath p2 →
  hs1 ≠ [] →
  hs2 ≠ [] →
  ∃ cb1 cb2 w',
    (let* that := attach sid m1 path1 hs1 in attach that m2 path2 hs2) w
      = (Ok sid, w') ∧
    length cb1 = length hs1 ∧
    length cb2 = length hs2 ∧
    servers w' !! sid =
      Some (mkServerObj
              (express_server so ++
               [mkRegistration m1 (ArgPath p1) cb1;
                mkRegistration m2 (ArgPath p2) cb2])
              (container so)) ∧
    trace w' = trace w.
Proof.
  intros Hso H1 H2 Hp1 Hp2 Hn1 Hn2.
  destruct (mapM_wrapHandler_lazy sid path1 H1 hs1 w)
    as (cb1 & w1 & Hrun1 & Hw1 & _ & Hall1).
  set (w1' := set_servers
                (alter (fun s => mkServerObj
                          (express_server s ++ [mkRegistration m1 (ArgPath p1) cb1])
                          (container s)) sid) w1).
  destruct (mapM_wrapHandler_lazy sid path2 H2 hs2 w1')
    as (cb2 & w2 & Hrun2 & Hw2 & _ & Hall2).
  apply Forall2_length in Hall1, Hall2.
  assert (cb1 ≠ []) as Hc1 by (intros ->; by destruct hs1).
  assert (cb2 ≠ []) as Hc2 by (intros ->; by destruct hs2).
  exists cb1, cb2. eexists.
  unfold attach. unfold bind at 1 2. rewrite Hrun1, Hp1.
  unfold bind at 1. rewrite (express_register_path _ _ _ _ _ Hc1).
  fold w1'. unfold ret, bind at 1. rewrite Hrun2, Hp2.
  unfold bind. rewrite (express_register_path _ _ _ _ _ Hc2).
  split; [reflexivity|].
  split; [done|]. split; [done|]. cbn.
  split.
  - rewrite lookup_alter_eq, (ow_servers _ _ Hw2). unfold w1'. cbn.
    rewrite lookup_alter_eq, (ow_servers _ _ Hw1), Hso. cbn.
    by rewrite <- (assoc_L (++)).
  - rewrite (ow_trace _ _ Hw2). unfold w1'. cbn. apply (ow_trace _ _ Hw1).
Qed.

(** The handlers are wrapped from left to right, up to the first one whose
    eager resolution fails. *)
Lemma mapM_wrapHandler_stops sid path before h after w ws w0 e :
  is_eager path = true →
  mapM (wrapHandler sid path) before w = (Ok ws, w0) →
  (resolve (container_of w0 sid) h w0).1 = Raise e →
  mapM (wrapHandler sid path) (before ++ h :: after) w
  = (Raise e, (resolve (container_of w0 sid) h w0).2).
Proof.
  intros Heager. revert w ws.
  induction before as [|h0 before IH]; intros w ws Hb Hfail.
  - injection Hb as <- <-. cbn. unfold bind.
    pose proof (wrapHandler_spec sid path h w) as Hs. rewrite Heager in Hs.
    destruct (resolve (container_of w sid) h w) as [[i|e'|] w1]; cbn in *;
      [done| |done].
    injection Hfail as ->. by rewrite Hs.
  - cbn in Hb |- *. unfold bind in Hb |- *.
    destruct (wrapHandler sid path h0 w) as [[wid|e'|] w1]; [|done|done].
    destruct (mapM (wrapHandler sid path) before w1) as [[ws'|e'|] w2] eqn:Hb';
      [|done|done].
    injection Hb as <- <-. by rewrite (IH _ _ Hb' Hfail).
Qed.

(** X7. When the eager resolution of one handler of a registration fails,
    the handlers before it have been resolved, in order, and their
    closures exist although no route refers to them; the failing one has
    been tried once; the handlers after it are never resolved. *)
Theorem eager_failure_stops_at_first_failing_handler
    sid method path before h after w ws w0 e :
  is_eager path = true →
  mapM (wrapHandler sid path) before w = (Ok ws, w0) →
  (resolve (container_of w0 sid) h w0).1 = Raise e →
  let w1 := (attach sid method path (before ++ h :: after) w).2 in
  trace w1 =
    trace w ++
    map (fun h => EvResolve (container_of w sid) (cls_name h)) (before ++ [h]) ∧
  Forall2 (fun wid h =>
             ∃ i, wrappers w1 !! wid = Some (mkWrapper sid h (Some i)))
          ws before ∧
  size (wrappers w1) = size (wrappers w) + length before.
Proof.
  intros Heager Hb Hfail w1. subst w1.
  unfold attach, bind.
  rewrite (mapM_wrapHandler_stops _ _ _ _ _ _ _ _ _ Heager Hb Hfail). cbn.
  destruct (mapM_wrapHandler_eager _ _ _ _ _ _ Heager Hb) as [Ht Hall].
  pose proof (mapM_wrapHandler_frame sid path before w) as [Hf _].
  rewrite Hb in Hf. cbn in Hf.
  destruct (mapM_wrapHandler_closures _ _ _ _ _ _ Hb) as (Hnd & Hnew & _ & _).
  rewrite resolve_trace, resolve_wrappers, Ht, (bf_container_of _ _ Hf).
  split; [by rewrite map_app, <- (assoc_L (++))|]. split; [done|].
  clear Hfail Ht Hf Hall. revert w ws w0 Hb Hnd Hnew.
  induction before as [|h0 before IH]; intros w ws w0 Hb Hnd Hnew.
  - injection Hb as <- <-. cbn. lia.
  - cbn in Hb. unfold bind in Hb.
    destruct (wrapHandler sid path h0 w) as [[wid|e'|] w1] eqn:Hw; [|done|done].
    destruct (mapM (wrapHandler sid path) before w1) as [[ws'|e'|] w2] eqn:Hb';
      [|done|done].
    injection Hb as <- <-.
    destruct (wrapHandler_adds_one _ _ _ _ _ _ Hw) as [Hfresh [inst Hw1]].
    destruct (mapM_wrapHandler_closures _ _ _ _ _ _ Hb') as (Hnd' & Hnew' & _ & _).
    rewrite (IH _ _ _ Hb' Hnd' Hnew'), Hw1, map_size_insert_None by done.
    cbn. lia.
Qed.

(** X8. Each request that reaches a nested server gets a scope of its
    own: two calls of the closure make two different child containers of
    the outer server's container, both stay in the store, and the nested
    server holds the one made last. *)
Theorem each_forward_makes_another_child
    wid wr nested so req1 rid1 next1 req2 rid2 next2 w :
  wrappers w !! wid = Some wr →
  w_instance wr = Some (IServer nested) →
  servers w !! nested = Some so →
  nested ≠ w_this wr →
  let c := container_of w (w_this wr) in
  let w1 := (invoke wid req1 rid1 next1 w).2 in
  let w2 := (invoke wid req2 rid2 next2 w1).2 in
  let child1 := fresh_key (containers w) in
  let child2 := fresh_key (containers w1) in
  child1 ≠ child2 ∧
  containers w2 !! child1 = Some (mkContainer ∅ (Some c)) ∧
  containers w2 !! child2 = Some (mkContainer ∅ (Some c)) ∧
  container_of w1 nested = child1 ∧
  container_of w2 nested = child2 ∧
  size (containers w2) = S (S (size (containers w))).
Proof.
  intros Hwr Hi Hso Hne c w1 w2 child1 child2.
  assert (w1 = (dispatch wr (IServer nested) req1 rid1 next1 w).2) as Hw1.
  { unfold w1. rewrite (invoke_unfold _ wr) by done.
    by rewrite (obtain_instance_cached _ _ _ (IServer nested)). }
  assert (wrappers w1 !! wid = Some wr) as Hwr1.
  { by rewrite Hw1, dispatch_wrappers. }
  assert (w2 = (dispatch wr (IServer nested) req2 rid2 next2 w1).2) as Hw2.
  { unfold w2. rewrite (invoke_unfold _ wr) by done.
    by rewrite (obtain_instance_cached _ _ _ (IServer nested)). }
  assert (containers w1 = <[child1 := mkContainer ∅ (Some c)]> (containers w)) as Hc1.
  { by rewrite Hw1. }
  assert (servers w1 = alter (fun s => mkServerObj (express_server s) child1)
                         nested (servers w)) as Hs1.
  { by rewrite Hw1. }
  assert (container_of w1 (w_this wr) = c) as Hc.
  { unfold container_of. rewrite Hs1. by rewrite lookup_alter_ne. }
  assert (containers w2 = <[child2 := mkContainer ∅ (Some c)]> (containers w1)) as Hc2.
  { rewrite Hw2. unfold dispatch. step_defs. cbn. by rewrite Hc. }
  assert (servers w2 = alter (fun s => mkServerObj (express_server s) child2)
                         nested (servers w1)) as Hs2.
  { by rewrite Hw2. }
  assert (containers w !! child1 = None) as Hf1
    by apply not_elem_of_dom, is_fresh.
  assert (containers w1 !! child2 = None) as Hf2
    by apply not_elem_of_dom, is_fresh.
  assert (child1 ≠ child2) as Hdiff.
  { intros Heq. rewrite <- Heq, Hc1, lookup_insert_eq in Hf2. discriminate. }
  split; [done|].
  split; [by rewrite Hc2, lookup_insert_ne, Hc1, lookup_insert_eq|].
  split; [by rewrite Hc2, lookup_insert_eq|].
  split; [unfold container_of; by rewrite Hs1, lookup_alter_eq, Hso|].
  split.
  - unfold container_of. by rewrite Hs2, lookup_alter_eq, Hs1, lookup_alter_eq, Hso.
  - rewrite Hc2, map_size_insert_None by done.
    by rewrite Hc1, map_size_insert_None.
Qed.

Lemma dispatch_trace_grows wr i req rid next w :
  ∃ ev, trace (dispatch wr i req rid next w).2 = trace w ++ ev.
Proof.
  destruct (dispatch_frame wr i req rid next w) as (res & w2 & ev & -> & Ht & _).
  by exists ev.
Qed.

(** X9. [this.container] is read when the closure runs, not when it is
    bound: after [setContainer(c)] the server's container is [c], the
    route table and the other servers are as before, and the first call
    of a lazy closure bound earlier asks [c]. *)
Theorem setContainer_redirects_lazy_resolution
    sid so c wid wr req rid next w :
  servers w !! sid = Some so →
  wrappers w !! wid = Some wr →
  w_this wr = sid →
  w_instance wr = None →
  let w1 := (setContainer sid c w).2 in
  getContainer sid w1 = (Ok c, w1) ∧
  servers w1 !! sid = Some (mkServerObj (express_server so) c) ∧
  (∀ other, other ≠ sid → servers w1 !! other = servers w !! other) ∧
  ∃ rest,
    trace (invoke wid req rid next w1).2
    = trace w ++ EvSetContainer sid c :: EvResolve c (cls_name (w_h wr)) :: rest.
Proof.
  intros Hso Hwr Hthis Hnone w1.
  assert (servers w1 !! sid = Some (mkServerObj (express_server so) c)) as Hs1.
  { unfold w1. step_defs. cbn. by rewrite lookup_alter_eq, Hso. }
  assert (container_of w1 sid = c) as Hc
    by (unfold container_of; by rewrite Hs1).
  split; [unfold getContainer, gets; by rewrite Hc|]. split; [done|].
  split.
  { intros other Hne. unfold w1. step_defs. cbn. by rewrite lookup_alter_ne. }
  assert (wrappers w1 !! wid = Some wr) as Hwr1 by done.
  assert (trace w1 = trace w ++ [EvSetContainer sid c]) as Ht1 by done.
  rewrite (invoke_unfold _ wr) by done.
  destruct (obtain_instance_lazy wid wr rid w1 Hnone)
    as [(e & w' & _ & -> & Ht & _)|(i & w' & Hr & ->)]; rewrite Hthis, Hc in *.
  - eexists. destruct (headersSent (response_of w1 rid)); cbn;
      rewrite Ht, ?Ht1, <- !(assoc_L (++)); reflexivity.
  - pose proof (resolve_trace c (w_h wr) w1) as Ht. rewrite Hr in Ht. cbn in Ht.
    destruct (dispatch_trace_grows wr i req rid next
                (set_wrappers
                   (alter (fun wr0 => mkWrapper (w_this wr0) (w_h wr0) (Some i)) wid)
                   w')) as [ev ->].
    exists ev. cbn. rewrite Ht, ?Ht1, <- !(assoc_L (++)). reflexivity.
Qed.

(** The class made by [Handler.from] always resolves. *)
Lemma resolve_adapter c f w :
  resolve c (Handler.from f) w =
    (Ok (IHandler EmptyString [] (fun req => from_handle (f req))),
     resolving c (Handler.from f) w).
Proof. reflexivity. Qed.

Lemma dispatch_unsettled wr cls deps handle req rid next w :
  completes (b_completion (handle req)) = false →
  (dispatch wr (IHandler cls deps handle) req rid next w).1 = Hang ∧
  trace (dispatch wr (IHandler cls deps handle) req rid next w).2
  = trace w ++ [EvHandle cls deps req rid; EvAwait].
Proof.
  intros Hc. unfold dispatch. step_defs.
  destruct (handle req) as [sy c tk]; cbn in *.
  destruct c as [|e|d [|e|]]; cbn in *; try discriminate.
  by rewrite <- (assoc_L (++)).
Qed.

(** X10. A raw callback wrapped by [Handler.from] that neither calls
    [next] nor throws in its call, and never calls [next] later, leaves
    the closure suspended for good, whatever it wrote: [handle]'s promise
    stays pending, so there is no tick, no check and no [next()]. *)
Theorem adapted_callback_without_next_never_returns
    wid wr f req rid next w :
  wrappers w !! wid = Some wr →
  w_instance wr = None →
  w_h wr = Handler.from f →
  signals (cb_sync (f req)) = false →
  thrown_by (cb_sync (f req)) = None →
  existsb signals (cb_later (f req)) = false →
  (invoke wid req rid next w).1 = Hang ∧
  count is_decision (trace (invoke wid req rid next w).2)
  = count is_decision (trace w).
Proof.
  intros Hwr Hnone Hh Hs Ht Hl.
  rewrite (invoke_unfold _ wr) by done.
  destruct (obtain_instance_lazy wid wr rid w Hnone)
    as [(e & w0 & He & _)|(i & w1 & Hr & ->)]; rewrite Hh in *.
  { rewrite resolve_adapter in He. discriminate. }
  rewrite resolve_adapter in Hr. injection Hr as <- <-.
  set (w1 := set_wrappers _ _).
  assert (completes (b_completion (from_handle (f req))) = false) as Hc.
  { destruct (from_handle_completion (f req)) as [during ->].
    by rewrite Hs, Ht, Hl. }
  destruct (dispatch_unsettled wr EmptyString [] (fun r => from_handle (f r))
              req rid next w1 Hc) as [-> ->].
  split; [done|]. unfold w1. cbn. rewrite !count_app. unfold count. cbn. lia.
Qed.

Lemma send_finalizes ops r b :
  Send b ∈ ops → headersSent (apply_ops ops r) = true.
Proof.
  intros Hin. apply list_elem_of_split in Hin as (l1 & l2 & ->).
  rewrite apply_ops_app.
  change (apply_ops (Send b :: l2) (apply_ops l1 r))
    with (apply_ops l2 (apply_op (apply_ops l1 r) (Send b))).
  apply headersSent_apply_ops. unfold apply_op.
  by destruct (headersSent (apply_ops l1 r)) eqn:Hs.
Qed.

(** The behaviour of [handle] when the raw callback calls [next] inside
    its own call. *)
Lemma from_handle_passing cb :
  signals (cb_sync cb) = true →
  from_handle cb =
    mkBehaviour (writes_of (cb_sync cb)) (ReturnsPromise [] Fulfils)
      (tick_writes (cb_due cb) (cb_later cb)).
Proof.
  intros Hs. unfold from_handle. rewrite run_executor_spec, Hs.
  by rewrite run_later_settled.
Qed.

(** X11. For a raw callback wrapped by [Handler.from], calling the [next]
    it was given only ends [handle]; whether the chain goes on is decided
    by [headersSent] after the tick, when the work that the callback had
    queued to run before the wrapper's timer has run too.  A callback that
    calls [next] in its own call makes the closure call [next()] once if
    the response is not finalized then, and not at all if it is; in
    particular not if the callback has sent the response before calling
    [next], or sends it in work that runs before the wrapper's timer. *)
Theorem adapted_callback_next_only_ends_handle
    wid wr f req rid next w :
  wrappers w !! wid = Some wr →
  w_instance wr = None →
  w_h wr = Handler.from f →
  signals (cb_sync (f req)) = true →
  let queued := tick_writes (cb_due (f req)) (cb_later (f req)) in
  let r := apply_ops queued
             (apply_ops (writes_of (cb_sync (f req))) (response_of w rid)) in
  ∃ w2,
    invoke wid req rid next w = (Ok tt, w2) ∧
    response_of w2 rid = r ∧
    count is_next (trace w2) =
      count is_next (trace w) + (if headersSent r then 0 else 1) ∧
    ((∃ b, Send b ∈ writes_of (cb_sync (f req)) ++ queued) →
     count is_next (trace w2) = count is_next (trace w)).
Proof.
  intros Hwr Hnone Hh Hs queued r.
  rewrite (invoke_unfold _ wr) by done.
  destruct (obtain_instance_lazy wid wr rid w Hnone)
    as [(e & w0 & He & _)|(i & w1 & Hr & ->)]; rewrite Hh in *.
  { rewrite resolve_adapter in He. discriminate. }
  rewrite resolve_adapter in Hr. injection Hr as <- <-.
  set (w1 := set_wrappers _ _).
  assert (response_of w1 rid = response_of w rid) as Hsame by done.
  assert (trace w1 = trace w ++ [EvResolve (container_of w (w_this wr)) EmptyString])
    as Ht1 by done.
  unfold dispatch. unfold bind at 1.
  pose proof (from_handle_passing (f req) Hs) as Hb.
  destruct (run_handler_spec EmptyString [] (from_handle (f req)) req rid w1)
    as (wc & pre & -> & Hrc & _ & _ & _ & _ & Hdec & _ & Htr).
  { by rewrite Hb. }
  { unfold contained. by rewrite Hb. }
  destruct (continue_chain_spec (from_handle (f req)) rid next wc)
    as (w2 & -> & Hr2 & _ & _ & _ & _ & Ht2).
  assert (apply_ops (b_tick (from_handle (f req))) (response_of wc rid) = r) as Hr.
  { rewrite Hrc, Hsame, Hb. unfold handle_writes. cbn. by rewrite app_nil_r. }
  rewrite Hr in *.
  assert (count is_next (trace w2) =
            count is_next (trace w) + (if headersSent r then 0 else 1)) as Hn.
  { rewrite Ht2, Htr, Ht1, !count_app, !count_cons.
    rewrite (no_decision_no_next pre Hdec).
    destruct (headersSent r); unfold count; cbn; lia. }
  exists w2. split; [done|]. split; [done|]. split; [done|].
  intros [b Hin]. rewrite Hn.
  assert (headersSent r = true) as ->; [|lia].
  unfold r. rewrite <- apply_ops_app. by eapply send_finalizes.
Qed.

(** What [listen] leaves behind, store by store. *)
Lemma listen_world sid port w :
  let pid := fresh_key (promises w) in
  let tid := fresh_key (transports w) in
  let w1 := (listen sid port w).2 in
  (listen sid port w).1 = Ok pid ∧
  promises w1 = <[pid := Pending]> (promises w) ∧
  transports w1 = <[tid := mkTransport port Binding [pid] [pid]]> (transports w) ∧
  containers w1 =
    alter (fun ct => mkContainer
             (<[HTTP_SERVER_TOKEN := UseValue (VHttpServer tid)]> (registry ct))
             (parent ct))
      (container_of w sid) (containers w) ∧
  servers w1 = servers w.
Proof.
  unfold listen, new_promise, express_listen, on_error, settle_promise,
    getContainer, register, try_catch, modify, gets, bind, ret.
  cbn. repeat split; try done. by rewrite alter_insert_eq.
Qed.

(** X12. [listen] is not guarded against a second call: it makes another
    transport and another promise, and the second handle replaces the
    first under [HTTP_SERVER_TOKEN].  Each promise follows its own
    transport: when the second transport accepts connections the first
    promise is still pending. *)
Theorem second_listen_replaces_published_handle sid port1 port2 w ct :
  containers w !! container_of w sid = Some ct →
  let w1 := (listen sid port1 w).2 in
  let w2 := (listen sid port2 w1).2 in
  let pid1 := fresh_key (promises w) in
  let pid2 := fresh_key (promises w1) in
  let t1 := fresh_key (transports w) in
  let t2 := fresh_key (transports w1) in
  (listen sid port1 w).1 = Ok pid1 ∧
  (listen sid port2 w1).1 = Ok pid2 ∧
  pid1 ≠ pid2 ∧
  t1 ≠ t2 ∧
  transports w2 !! t1 = Some (mkTransport port1 Binding [pid1] [pid1]) ∧
  transports w2 !! t2 = Some (mkTransport port2 Binding [pid2] [pid2]) ∧
  (resolve_token (container_of w sid) HTTP_SERVER_TOKEN w2).1 = Ok (VHttpServer t2) ∧
  promises (bind_outcome t2 Bound w2) !! pid1 = Some Pending ∧
  promises (bind_outcome t2 Bound w2) !! pid2 = Some Fulfilled.
Proof.
  intros Hct w1 w2 pid1 pid2 t1 t2.
  destruct (listen_world sid port1 w) as (Hr1 & Hp1 & Ht1 & Hc1 & Hs1).
  destruct (listen_world sid port2 w1) as (Hr2 & Hp2 & Ht2 & Hc2 & Hs2).
  fold w1 pid1 t1 in Hr1, Hp1, Ht1, Hc1, Hs1.
  fold w2 pid2 t2 in Hr2, Hp2, Ht2, Hc2, Hs2.
  assert (container_of w1 sid = container_of w sid) as Hsame
    by (unfold container_of; by rewrite Hs1).
  rewrite Hsame in Hc2.
  assert (pid1 ≠ pid2) as Hpid.
  { intros Heq.
    assert (promises w1 !! pid2 = None) as Hf by apply not_elem_of_dom, is_fresh.
    rewrite <- Heq, Hp1, lookup_insert_eq in Hf. discriminate. }
  assert (t1 ≠ t2) as Htid.
  { intros Heq.
    assert (transports w1 !! t2 = None) as Hf by apply not_elem_of_dom, is_fresh.
    rewrite <- Heq, Ht1, lookup_insert_eq in Hf. discriminate. }
  assert (transports w2 !! t2 = Some (mkTransport port2 Binding [pid2] [pid2]))
    as Hl2 by (rewrite Ht2; apply lookup_insert_eq).
  split; [done|]. split; [done|]. split; [done|]. split; [done|].
  split; [by rewrite Ht2, lookup_insert_ne, Ht1, lookup_insert_eq|].
  split; [done|].
  split.
  { erewrite resolve_token_registered; [done|..].
    - rewrite Hc2, lookup_alter_eq, Hc1, lookup_alter_eq, Hct. reflexivity.
    - cbn. apply lookup_insert_eq. }
  clearbody w2 w1 pid1 pid2 t1 t2.
  unfold bind_outcome. rewrite Hl2. cbn.
  split.
  - rewrite lookup_alter_ne by done.
    by rewrite Hp2, lookup_insert_ne, Hp1, lookup_insert_eq.
  - by rewrite lookup_alter_eq, Hp2, lookup_insert_eq.
Qed.

(** X13. The promise of [listen] settles once.  An error that the
    transport reports after it has begun to accept connections changes
    nothing in the promise: no one is told.  A bind error rejects it for
    good. *)
Theorem listen_promise_settles_once sid port w e :
  let w1 := (listen sid port w).2 in
  let pid := fresh_key (promises w) in
  let tid := fresh_key (transports w) in
  promises (bind_outcome tid (BindError e) (bind_outcome tid Bound w1)) !! pid
    = Some Fulfilled ∧
  promises (bind_outcome tid Bound (bind_outcome tid (BindError e) w1)) !! pid
    = Some (Rejected e).
Proof.
  intros w1 pid tid.
  destruct (listen_world sid port w) as (_ & Hp1 & Ht1 & _).
  fold w1 pid tid in Hp1, Ht1. clearbody w1 pid tid.
  unfold bind_outcome. rewrite Ht1, lookup_insert_eq. cbn.
  rewrite !lookup_insert_eq. cbn.
  by rewrite !lookup_alter_eq, Hp1, lookup_insert_eq.
Qed.

(** *** The properties of this section, on the scenarios *)

Lemma lazy_instance_is_resolved_once_witness :
  count is_resolve
    (trace (invoke 0 "/" 8 101
              (invoke 0 "/" 7 100 (Scenario.served Scenario.Inspect)).2).2) = 1.
Proof.
  destruct (lazy_instance_is_resolved_once
              0 (Scenario.lazy_wrapper Scenario.Inspect)
              (IHandler "Inspect" []
                 (fun _ => mkBehaviour [] (ReturnsPromise [] Fulfils) []))
              "/" 7 100 (Scenario.served Scenario.Inspect))
    as (_ & Hn & Hlater).
  - vm_compute. reflexivity.
  - reflexivity.
  - vm_compute. reflexivity.
  - destruct (Hlater "/" 8 101) as [_ Hsame].
    rewrite Hsame, Hn. vm_compute. reflexivity.
Defined.

Lemma unsettled_handler_stalls_the_chain_witness :
  (invoke 0 "/" 7 100 (Scenario.served Cases.Stalling)).1 = Hang ∧
  response_of (invoke 0 "/" 7 100 (Scenario.served Cases.Stalling)).2 7
    = mkResponse 202 None false.
Proof.
  destruct (unsettled_handler_stalls_the_chain
              0 (Scenario.lazy_wrapper Cases.Stalling) "Stalling" []
              (fun _ => mkBehaviour [Status 202] (ReturnsPromise [] NeverSettles) [])
              "/" 7 100 (Scenario.served Cases.Stalling)
              (obtain_instance 0 (Scenario.lazy_wrapper Cases.Stalling) 7
                 (Scenario.served Cases.Stalling)).2)
    as (w2 & Hinv & _ & Hres & _).
  - vm_compute. reflexivity.
  - vm_compute. reflexivity.
  - reflexivity.
  - rewrite Hinv. cbn [fst snd]. rewrite Hres. split; vm_compute; reflexivity.
Defined.

Lemma invoke_touches_its_own_closure_only_witness :
  wrappers (invoke 0 "/a" 7 100 Scenario.rebound).2 !! 1
  = wrappers Scenario.rebound !! 1.
Proof.
  apply (invoke_touches_its_own_closure_only 0 1 "/a" 7 100 Scenario.rebound).
  discriminate.
Defined.

Lemma attach_makes_one_closure_per_handler_witness :
  ∃ callbacks,
    servers (attach 0 POST (Config (PString "/x") (Some true))
               [Scenario.HelloWorld; Scenario.HelloWorld]
               (Scenario.served Scenario.Inspect)).2 !! 0 =
      Some (mkServerObj
              ([mkRegistration GET (ArgPath (PString "/")) [0]] ++
               [mkRegistration POST (ArgPath (PString "/x")) callbacks])
              RootContainer) ∧
    NoDup callbacks.
Proof.
  destruct (attach_makes_one_closure_per_handler
              0 POST (Config (PString "/x") (Some true))
              [Scenario.HelloWorld; Scenario.HelloWorld]
              (Scenario.served Scenario.Inspect)
              (mkServerObj [mkRegistration GET (ArgPath (PString "/")) [0]] RootContainer)
              0
              (attach 0 POST (Config (PString "/x") (Some true))
                 [Scenario.HelloWorld; Scenario.HelloWorld]
                 (Scenario.served Scenario.Inspect)).2)
    as (callbacks & _ & Hreg & Hnd & _).
  - discriminate.
  - vm_compute. reflexivity.
  - vm_compute. reflexivity.
  - exists callbacks. split; [exact Hreg|exact Hnd].
Defined.

Lemma lazy_registrations_chain_in_order_witness :
  ∃ cb1 cb2,
    servers
      ((let* that := attach 0 POST (Bare (PString "/a")) [Scenario.HelloWorld] in
        attach that USE (Config (PString "/b") (Some false)) [Scenario.Inspect])
         (Scenario.served Scenario.Inspect)).2 !! 0 =
      Some (mkServerObj
              ([mkRegistration GET (ArgPath (PString "/")) [0]] ++
               [mkRegistration POST (ArgPath (PString "/a")) cb1;
                mkRegistration USE (ArgPath (PString "/b")) cb2])
              RootContainer).
Proof.
  destruct (lazy_registrations_chain_in_order
              0 POST USE (Bare (PString "/a")) (Config (PString "/b") (Some false))
              (PString "/a") (PString "/b")
              [Scenario.HelloWorld] [Scenario.Inspect]
              (Scenario.served Scenario.Inspect)
              (mkServerObj [mkRegistration GET (ArgPath (PString "/")) [0]] RootContainer))
    as (cb1 & cb2 & w' & Hrun & _ & _ & Hreg & _).
  - vm_compute. reflexivity.
  - reflexivity.
  - reflexivity.
  - reflexivity.
  - reflexivity.
  - discriminate.
  - discriminate.
  - exists cb1, cb2. rewrite Hrun. exact Hreg.
Defined.

Lemma eager_failure_stops_at_first_failing_handler_witness :
  trace (attach 0 GET (Config (PString "/") (Some true))
           [Scenario.HelloWorld; Scenario.NeedsDb; Scenario.Inspect]
           (Scenario.served Scenario.Inspect)).2
  = [EvResolve 0 "HelloWorld"; EvResolve 0 "NeedsDb"].
Proof.
  destruct (eager_failure_stops_at_first_failing_handler
              0 GET (Config (PString "/") (Some true))
              [Scenario.HelloWorld] Scenario.NeedsDb [Scenario.Inspect]
              (Scenario.served Scenario.Inspect)
              [1]
              (mapM (wrapHandler 0 (Config (PString "/") (Some true)))
                 [Scenario.HelloWorld] (Scenario.served Scenario.Inspect)).2
              (unregistered Scenario.DATABASE_TOKEN))
    as (Ht & _).
  - reflexivity.
  - vm_compute. reflexivity.
  - vm_compute. reflexivity.
  - cbn [app] in Ht. rewrite Ht. vm_compute. reflexivity.
Defined.

Lemma each_forward_makes_another_child_witness :
  container_of (invoke 0 "/" 8 101 (invoke 0 "/" 7 100 Cases.nesting).2).2 1 = 3.
Proof.
  destruct (each_forward_makes_another_child
              0 (Cases.cached Scenario.ApiServer (IServer 1)) 1
              (mkServerObj [] 1) "/" 7 100 "/" 8 101 Cases.nesting)
    as (_ & _ & _ & _ & Hc & _).
  - vm_compute. reflexivity.
  - reflexivity.
  - vm_compute. reflexivity.
  - discriminate.
  - rewrite Hc. vm_compute. reflexivity.
Defined.

Lemma setContainer_redirects_lazy_resolution_witness :
  ∃ rest,
    trace (invoke 0 "/" 7 100
             (setContainer 0 5 (Scenario.served Scenario.NeedsDb)).2).2
    = [EvSetContainer 0 5; EvResolve 5 "NeedsDb"] ++ rest.
Proof.
  destruct (setContainer_redirects_lazy_resolution
              0 (mkServerObj [mkRegistration GET (ArgPath (PString "/")) [0]] RootContainer)
              5 0 (Scenario.lazy_wrapper Scenario.NeedsDb) "/" 7 100
              (Scenario.served Scenario.NeedsDb))
    as (_ & _ & _ & rest & Ht).
  - vm_compute. reflexivity.
  - vm_compute. reflexivity.
  - reflexivity.
  - reflexivity.
  - exists rest. rewrite Ht. vm_compute. reflexivity.
Defined.

Lemma adapted_callback_without_next_never_returns_witness :
  (invoke 0 "/v1" 7 100
     (Scenario.served (Handler.from (fun _ => Cases.answers)))).1 = Hang.
Proof.
  apply (adapted_callback_without_next_never_returns
           0 (Scenario.lazy_wrapper (Handler.from (fun _ => Cases.answers)))
           (fun _ => Cases.answers) "/v1" 7 100
           (Scenario.served (Handler.from (fun _ => Cases.answers))));
    vm_compute; reflexivity.
Defined.

Lemma adapted_callback_next_only_ends_handle_witness :
  let out := invoke 0 "/" 7 100
               (Scenario.served (Handler.from (fun _ => Cases.passes_then_answers))) in
  response_of out.2 7 = mkResponse 200 (Some "late") true ∧
  count is_next (trace out.2) = 0.
Proof.
  destruct (adapted_callback_next_only_ends_handle
              0 (Scenario.lazy_wrapper (Handler.from (fun _ => Cases.passes_then_answers)))
              (fun _ => Cases.passes_then_answers) "/" 7 100
              (Scenario.served (Handler.from (fun _ => Cases.passes_then_answers))))
    as (w2 & Hinv & Hres & _ & Hsent).
  - vm_compute. reflexivity.
  - reflexivity.
  - reflexivity.
  - reflexivity.
  - cbv zeta. rewrite Hinv. cbn [snd]. rewrite Hres, Hsent.
    + split; vm_compute; reflexivity.
    + exists "late". vm_compute. apply list_elem_of_here.
Defined.

Lemma second_listen_replaces_published_handle_witness :
  (resolve_token RootContainer HTTP_SERVER_TOKEN
     (listen 0 8081 (listen 0 8080 (Scenario.served Scenario.HelloWorld)).2).2).1
  = Ok (VHttpServer 1).
Proof.
  destruct (second_listen_replaces_published_handle
              0 8080%N 8081%N (Scenario.served Scenario.HelloWorld)
              (mkContainer ∅ None))
    as (_ & _ & _ & _ & _ & _ & Hr & _).
  - vm_compute. reflexivity.
  - etrans; [|etrans; [exact Hr|]]; vm_compute; reflexivity.
Defined.

End Coverage.

(** ** The earlier revisions *)

Section Revisions.
Import Server.

Local Arguments resolve : simpl never.
Local Arguments apply_op : simpl never.
Local Arguments count : simpl never.

Ltac chain_defs :=
  unfold continue_chain, call_handle, yield_tick, res_headersSent,
    handler_writes, forward, getContainer, set_instance,
    try_catch, throw, emit, modify, gets, bind, ret.

(** X14. In the revision without [try], an error of [handle] (a throw or a
    rejected promise) leaves the closure: its promise is rejected with
    the error; the wrapper sets no status, sends nothing, logs nothing,
    and there is no tick and no [next()].  The response holds what the
    handler wrote. *)
Theorem v1_handler_error_leaves_the_closure
    wid wr cls deps handle req rid next w w1 e :
  wrappers w !! wid = Some wr →
  Server_v1.obtain_instance wid wr w = (Ok (IHandler cls deps handle), w1) →
  failure (b_completion (handle req)) = Some e →
  ∃ w2 ev,
    Server_v1.invoke wid req rid next w = (Raise e, w2) ∧
    trace w2 = trace w1 ++ ev ∧
    List.filter (fun x => is_send x || is_status x || is_decision x) ev = [] ∧
    console w2 = console w1 ∧
    response_of w2 rid = apply_ops (handle_writes (handle req)) (response_of w1 rid).
Proof.
  intros Hwr Hi Hf. unfold Server_v1.invoke. rewrite Hwr.
  unfold bind at 1. rewrite Hi.
  unfold Server_v1.dispatch, handle_writes. chain_defs.
  destruct (handle req) as [sy c tk]; cbn in *.
  destruct c as [|e'|d [|e'|]]; cbn in *; try discriminate;
    injection Hf as ->.
  - eexists _, [_]. split; [reflexivity|]. cbn.
    rewrite app_nil_r. repeat split; try done.
    unfold response_of, update_response. cbn. by rewrite lookup_insert_eq.
  - eexists _, [_; _]. split; [reflexivity|]. cbn.
    rewrite <- (assoc_L (++)). repeat split; try done.
    unfold response_of, update_response. cbn.
    by rewrite !lookup_insert_eq, apply_ops_app.
Qed.

(** X15. In the revision without [try], a resolution that fails leaves
    the closure too: its promise is rejected with the error and nothing
    is written to the response; [instance] stays empty. *)
Theorem v1_resolution_error_leaves_the_closure wid wr req rid next w e :
  wrappers w !! wid = Some wr →
  w_instance wr = None →
  (resolve (container_of w (w_this wr)) (w_h wr) w).1 = Raise e →
  ∃ w2,
    Server_v1.invoke wid req rid next w = (Raise e, w2) ∧
    trace w2 =
      trace w ++ [EvResolve (container_of w (w_this wr)) (cls_name (w_h wr))] ∧
    responses w2 = responses w ∧
    wrappers w2 = wrappers w.
Proof.
  intros Hwr Hnone Hfail. unfold Server_v1.invoke. rewrite Hwr.
  unfold Server_v1.obtain_instance. rewrite Hnone. chain_defs. cbn.
  destruct (resolve_spec (container_of w (w_this wr)) (w_h wr) w)
    as [[e' He]|[(cls & deps & handle & Hh)| Hs]].
  - rewrite He in *. cbn in Hfail. injection Hfail as ->. by eexists.
  - rewrite Hh in Hfail. discriminate.
  - rewrite Hs in Hfail. discriminate.
Qed.

(** X16. In the first revision the [catch] is empty: an error of [handle]
    is dropped, nothing is logged and the wrapper writes nothing; after
    the tick [next()] is called unless the handler itself had finalized
    the response, so the chain goes on past a handler that failed. *)
Theorem v0_handler_error_is_dropped
    wid wr cls deps handle req rid next w w1 e :
  wrappers w !! wid = Some wr →
  Server_v0.obtain_instance wid wr w = (Ok (IHandler cls deps handle), w1) →
  failure (b_completion (handle req)) = Some e →
  let r := apply_ops (b_tick (handle req))
             (apply_ops (handle_writes (handle req)) (response_of w1 rid)) in
  ∃ w2 ev,
    Server_v0.invoke wid req rid next w = (Ok tt, w2) ∧
    trace w2 = trace w1 ++ ev ∧
    List.filter (fun x => is_send x || is_status x) ev = [] ∧
    count is_next ev = (if headersSent r then 0 else 1) ∧
    console w2 = console w1 ∧
    response_of w2 rid = r.
Proof.
  intros Hwr Hi Hf r. unfold Server_v0.invoke. rewrite Hwr.
  unfold bind at 1. rewrite Hi.
  unfold Server_v0.dispatch. unfold bind at 1.
  assert (∃ wc pre,
            try_catch (call_handle cls deps (handle req) req rid)
              (fun _ => ret tt) w1 = (Ok tt, wc) ∧
            trace wc = trace w1 ++ pre ∧
            List.filter (fun x => is_send x || is_status x) pre = [] ∧
            count is_next pre = 0 ∧
            console wc = console w1 ∧
            response_of wc rid =
              apply_ops (handle_writes (handle req)) (response_of w1 rid))
    as (wc & pre & -> & Htr & Hpre & Hnx & Hcon & Hrc).
  { unfold handle_writes. chain_defs.
    destruct (handle req) as [sy c tk]; cbn in *.
    destruct c as [|e'|d [|e'|]]; cbn in *; try discriminate.
    - eexists _, [_]. split; [reflexivity|]. cbn.
      rewrite app_nil_r. repeat split; try done.
      unfold response_of, update_response. cbn. by rewrite lookup_insert_eq.
    - eexists _, [_; _]. split; [reflexivity|]. cbn.
      rewrite <- (assoc_L (++)). repeat split; try done.
      unfold response_of, update_response. cbn.
      by rewrite !lookup_insert_eq, apply_ops_app. }
  destruct (continue_chain_spec (handle req) rid next wc)
    as (w2 & -> & Hr2 & Hc2 & _ & _ & _ & Ht2).
  rewrite Hrc in Hr2, Ht2. fold r in Hr2, Ht2.
  exists w2, (pre ++ EvYield :: EvCheck rid (headersSent r) ::
                (if headersSent r then [] else [EvNext next])).
  split; [done|].
  split; [by rewrite Ht2, Htr, <- (assoc_L (++))|].
  split; [rewrite List.filter_app, Hpre; by destruct (headersSent r)|].
  split; [rewrite count_app, Hnx; by destruct (headersSent r)|].
  split; [by rewrite Hc2|done].
Qed.

(** *** The properties of this section, on the scenarios *)

Lemma v1_handler_error_leaves_the_closure_witness :
  (Server_v1.invoke 0 "/" 7 100 (Cases.served_v1 Scenario.Failing)).1
    = Raise Scenario.boom ∧
  console (Server_v1.invoke 0 "/" 7 100 (Cases.served_v1 Scenario.Failing)).2 = [].
Proof.
  destruct (v1_handler_error_leaves_the_closure
              0 (Scenario.lazy_wrapper Scenario.Failing) "Failing" []
              (fun _ => mkBehaviour [] (ReturnsPromise [] (Rejects Scenario.boom)) [])
              "/" 7 100 (Cases.served_v1 Scenario.Failing)
              (Server_v1.obtain_instance 0 (Scenario.lazy_wrapper Scenario.Failing)
                 (Cases.served_v1 Scenario.Failing)).2
              Scenario.boom)
    as (w2 & ev & Hinv & _ & _ & Hcon & _).
  - vm_compute. reflexivity.
  - vm_compute. reflexivity.
  - reflexivity.
  - rewrite Hinv. cbn [fst snd]. rewrite Hcon. split; vm_compute; reflexivity.
Defined.

Lemma v1_resolution_error_leaves_the_closure_witness :
  (Server_v1.invoke 0 "/" 7 100 (Cases.served_v1 Scenario.NeedsDb)).1
    = Raise (unregistered Scenario.DATABASE_TOKEN) ∧
  response_of (Server_v1.invoke 0 "/" 7 100 (Cases.served_v1 Scenario.NeedsDb)).2 7
    = new_response.
Proof.
  destruct (v1_resolution_error_leaves_the_closure
              0 (Scenario.lazy_wrapper Scenario.NeedsDb) "/" 7 100
              (Cases.served_v1 Scenario.NeedsDb)
              (unregistered Scenario.DATABASE_TOKEN))
    as (w2 & Hinv & _ & Hres & _).
  - vm_compute. reflexivity.
  - reflexivity.
  - vm_compute. reflexivity.
  - rewrite Hinv. cbn [fst snd]. unfold response_of. rewrite Hres.
    split; vm_compute; reflexivity.
Defined.

Lemma v0_handler_error_is_dropped_witness :
  (Server_v0.invoke 0 "/" 7 100 (Cases.served_v0 Scenario.Failing)).1 = Ok tt ∧
  console (Server_v0.invoke 0 "/" 7 100 (Cases.served_v0 Scenario.Failing)).2 = [] ∧
  count is_next
    (trace (Server_v0.invoke 0 "/" 7 100 (Cases.served_v0 Scenario.Failing)).2) = 1.
Proof.
  destruct (v0_handler_error_is_dropped
              0 (Scenario.lazy_wrapper Scenario.Failing) "Failing" []
              (fun _ => mkBehaviour [] (ReturnsPromise [] (Rejects Scenario.boom)) [])
              "/" 7 100 (Cases.served_v0 Scenario.Failing)
              (Server_v0.obtain_instance 0 (Scenario.lazy_wrapper Scenario.Failing)
                 (Cases.served_v0 Scenario.Failing)).2
              Scenario.boom)
    as (w2 & ev & Hinv & Ht & _ & Hn & Hcon & _).
  - vm_compute. reflexivity.
  - vm_compute. reflexivity.
  - reflexivity.
  - rewrite Hinv. cbn [fst snd]. rewrite Hcon, Ht, count_app, Hn.
    repeat split; vm_compute; reflexivity.
Defined.

End Revisions.
